(** * Course planner: a shallow embedding of [backend/plannerLogic.js]

    The file embeds the two functions of the planner, [getRequirements]
    (the requirement resolver) and [generatePlan] (the term scheduler), and
    proves the properties the specification states about them.

    Conventions of the embedding.
    - JavaScript arrays are lists; a [Map] is a [gmap]; the [Set]
      [requiredCourseIDs] is a duplicate-free list in insertion order, which
      is the order [Array.from] reads it in.
    - Course identifiers, term labels and names are strings.
    - Integer-valued numbers are [Z]; the value [NaN], which arithmetic on
      [undefined] produces, is a constructor of its own.
    - A field that may be missing on a record is an [option].
    - A call that can throw returns a [result]. *)

From Stdlib Require Import ZArith Lia.
From stdpp Require Import gmap strings list fin_maps pretty sorting.

Local Open Scope Z_scope.
#[local] Set Warnings "-clear-no-such-hyp".

(** ** Completions: a value or a thrown exception *)

Inductive exn : Type :=
  | TypeError                    (* property read on [undefined] *)
  | Error (text : string)        (* [throw new Error(text)] *)
  | DbFailure (cause : string).  (* a rejected [db.query] promise *)

Inductive result (A : Type) : Type :=
  | Return (a : A)
  | Throw (e : exn).
Arguments Return {A} a.
Arguments Throw {A} e.

#[global] Instance result_ret : MRet result := λ A a, Return a.
#[global] Instance result_bind : MBind result := λ A B f m,
  match m with
  | Return a => f a
  | Throw e => Throw e
  end.

(** Reading a property of the value a [Map.get] produced: [undefined]
    makes the read throw. *)
Definition defined {A} (o : option A) : result A :=
  match o with
  | Some a => Return a
  | None => Throw TypeError
  end.

(** ** Records of the data layer *)

Record Course : Type := {
  course_id : string;
  name : string;
  credits : Z;
  prerequisites : option (list string);
  semesters_offered : option (list string)
}.

(** The [options_pool] field of a requirement row: missing (or null), some
    value that is not an array, or an array of course identifiers. *)
Inductive OptionsPool : Type :=
  | Absent
  | NotAnArray
  | IdArray (ids : list string).

Record Requirement : Type := {
  program_id : Z;
  program_name : string;
  options_pool : OptionsPool
}.

(** ** The term scheduler *)

Module Planner.

(** Values held by [prereqStatus]. *)
Inductive jsnum : Type :=
  | Num (z : Z)
  | NaN.

#[global] Instance jsnum_eq_dec : EqDecision jsnum.
Proof. solve_decision. Defined.

(** [v - 1] for the value [v] that [prereqStatus.get] produced. *)
Definition minus_one (v : option jsnum) : jsnum :=
  match v with
  | Some (Num z) => Num (z - 1)
  | Some NaN | None => NaN
  end.

(** The objects pushed on [scheduleSlot.courses]. *)
Record SlotCourse : Type := {
  id : string;
  slot_course_name : string;
  slot_course_credits : Z
}.

Record ScheduleSlot : Type := {
  year : Z;
  semester : string;
  courses : list SlotCourse;
  slot_credits : Z
}.

Record UnmetRequirement : Type := {
  unmet_course_id : string;
  reason : string
}.

Record Plan : Type := {
  schedule : list ScheduleSlot;
  unmet_requirements : list UnmetRequirement;
  message : string
}.

(** *** Sets of identifiers in insertion order *)

Definition set_add (x : string) (s : list string) : list string :=
  if decide (x ∈ s) then s else s ++ [x].

Definition set_delete (x : string) (s : list string) : list string :=
  filter (λ y, y ≠ x) s.

(** *** Set-up: lookup table, required set, counters *)

(** [new Map(catalog.map(c => [c.course_id, c]))]: a later entry with the
    same key replaces an earlier one. *)
Definition courseLookup (catalog : list Course) : gmap string Course :=
  foldl (λ m c, <[course_id c := c]> m) ∅ catalog.

Definition add_option (lookup : gmap string Course)
    (s : list string) (i : string) : list string :=
  if decide (is_Some (lookup !! i)) then set_add i s else s.

Definition add_requirement (lookup : gmap string Course)
    (s : list string) (req : Requirement) : list string :=
  match options_pool req with
  | IdArray ids => foldl (add_option lookup) s ids
  | Absent | NotAnArray => s
  end.

Definition requiredCourseIDs (requirements : list Requirement)
    (lookup : gmap string Course) : list string :=
  foldl (add_requirement lookup) [] requirements.

(** [completedCourses.forEach(id => requiredCourseIDs.delete(id))] followed
    by [Array.from]. *)
Definition initialPool (requirements : list Requirement)
    (lookup : gmap string Course) (completedCourses : list string)
    : list string :=
  foldl (λ s i, set_delete i s) (requiredCourseIDs requirements lookup)
        completedCourses.

Definition prereq_count (c : Course) : Z :=
  Z.of_nat (length (default [] (prerequisites c))).

Definition initializePrereqStatus (catalog : list Course)
    : gmap string jsnum :=
  foldl (λ m c, <[course_id c := Num (prereq_count c)]> m) ∅ catalog.

(** [course.prerequisites && course.prerequisites.includes(i)] *)
Definition lists_prerequisite (i : string) (c : Course) : bool :=
  match prerequisites c with
  | Some ps => bool_decide (i ∈ ps)
  | None => false
  end.

Definition decrement (status : gmap string jsnum) (k : string)
    : gmap string jsnum :=
  <[k := minus_one (status !! k)]> status.

(** The scan [catalog.forEach(course => ...)] that both the pre-seeding pass
    and the per-term update run for one satisfied identifier. *)
Definition satisfy (catalog : list Course) (status : gmap string jsnum)
    (i : string) : gmap string jsnum :=
  foldl (λ m c, if lists_prerequisite i c then decrement m (course_id c)
                else m)
        status catalog.

Definition preseed (lookup : gmap string Course) (catalog : list Course)
    (status : gmap string jsnum) (completedCourses : list string)
    : gmap string jsnum :=
  foldl (λ m completedId,
           match lookup !! completedId with
           | Some _ => satisfy catalog m completedId
           | None => m
           end)
        status completedCourses.

(** *** One term *)

Definition MAX_CREDITS : Z := 16.

Definition semesters : list string := ["Fall"; "Spring"]%string.

Definition isOffered (currentSemester : string) (c : Course) : bool :=
  match semesters_offered c with
  | Some ts => bool_decide (currentSemester ∈ ts)
  | None => false
  end.

Definition prereqsMet (status : gmap string jsnum) (c : Course) : bool :=
  bool_decide (status !! course_id c = Some (Num 0)).

Definition eligible (status : gmap string jsnum) (currentSemester : string)
    (c : Course) : bool :=
  isOffered currentSemester c && prereqsMet status c.

(** The comparator of the [sort] call; reading [.length] throws when
    [semesters_offered] is missing. *)
Definition compare_offerings (a b : Course) : result Z :=
  la ← defined (semesters_offered a);
  lb ← defined (semesters_offered b);
  mret (Z.of_nat (length la) - Z.of_nat (length lb)).

(** [Array.prototype.sort] is stable; with a comparator that is a total
    preorder its outcome is the same for every conforming algorithm. The
    insertion sort below is the executable instance used here. *)
Fixpoint sort_insert (x : Course) (l : list Course) : result (list Course) :=
  match l with
  | [] => mret [x]
  | y :: l' =>
      d ← compare_offerings x y;
      if d <=? 0 then mret (x :: y :: l')
      else l'' ← sort_insert x l'; mret (y :: l'')
  end.

Fixpoint sort_by_offerings (l : list Course) : result (list Course) :=
  match l with
  | [] => mret []
  | x :: l' => s ← sort_by_offerings l'; sort_insert x s
  end.

Definition slot_entry (c : Course) : SlotCourse :=
  {| id := course_id c;
     slot_course_name := name c;
     slot_course_credits := credits c |}.

(** One iteration of [for (const course of eligibleCourses)]: the state is
    the slot being filled and [scheduledThisSemester]. *)
Definition consider (st : ScheduleSlot * list string) (c : Course)
    : ScheduleSlot * list string :=
  if slot_credits st.1 + credits c <=? MAX_CREDITS then
    ({| year := year st.1;
        semester := semester st.1;
        courses := courses st.1 ++ [slot_entry c];
        slot_credits := slot_credits st.1 + credits c |},
     st.2 ++ [course_id c])
  else st.

Definition fill (slot : ScheduleSlot) (eligibleCourses : list Course)
    : ScheduleSlot * list string :=
  foldl consider (slot, []) eligibleCourses.

(** The mutable state of the loop: [coursePool], [prereqStatus] and
    [schedule]. *)
Record State : Type := {
  coursePool : list string;
  prereqStatus : gmap string jsnum;
  plan_so_far : list ScheduleSlot
}.

Definition update (catalog : list Course)
    (st : list string * gmap string jsnum) (scheduledId : string)
    : list string * gmap string jsnum :=
  (filter (λ i, i ≠ scheduledId) st.1, satisfy catalog st.2 scheduledId).

(** The (year, term) pairs in the order the nested [for] loops visit
    them. *)
Definition terms : list (Z * string) :=
  y ← [0; 1; 2; 3]; s ← semesters; [(y, s)].

Definition unmet (i : string) : UnmetRequirement :=
  {| unmet_course_id := i;
     reason := "Could not be scheduled due to timing, prerequisites, or credit limits." |}.

Definition initialState (requirements : list Requirement)
    (catalog : list Course) (completedCourses : list string) : State :=
  let lookup := courseLookup catalog in
  {| coursePool := initialPool requirements lookup completedCourses;
     prereqStatus :=
       preseed lookup catalog (initializePrereqStatus catalog)
               completedCourses;
     plan_so_far := [] |}.

Definition finalOutput (st : State) : Plan :=
  {| schedule := plan_so_far st;
     unmet_requirements := unmet <$> coursePool st;
     message := "Plan generated successfully, with "
                +:+ pretty (length (coursePool st))
                +:+ " requirements left unmet." |}.

Section WithSort.

(** The sorting algorithm of the engine that runs the code. *)
Variable sort : list Course → result (list Course).

Definition eligibleCourses (lookup : gmap string Course)
    (st : State) (currentSemester : string) : result (list Course) :=
  cs ← mapM (λ i, defined (lookup !! i)) (coursePool st);
  sort (filter (λ c, eligible (prereqStatus st) currentSemester c) cs).

Definition emptySlot (startYear : Z) (term : Z * string) : ScheduleSlot :=
  {| year := startYear + term.1;
     semester := term.2;
     courses := [];
     slot_credits := 0 |}.

(** The body of the inner [for] loop. *)
Definition scheduleSemester (lookup : gmap string Course)
    (catalog : list Course) (startYear : Z) (st : State)
    (term : Z * string) : result State :=
  es ← eligibleCourses lookup st term.2;
  let filled := fill (emptySlot startYear term) es in
  let st' := foldl (update catalog) (coursePool st, prereqStatus st)
                   filled.2 in
  mret {| coursePool := st'.1;
          prereqStatus := st'.2;
          plan_so_far := plan_so_far st ++ [filled.1] |}.

Fixpoint run (lookup : gmap string Course) (catalog : list Course)
    (startYear : Z) (st : State) (ts : list (Z * string))
    : result State :=
  match ts with
  | [] => mret st
  | t :: ts' =>
      st' ← scheduleSemester lookup catalog startYear st t;
      run lookup catalog startYear st' ts'
  end.

Definition generatePlanWith (requirements : list Requirement)
    (catalog : list Course) (completedCourses : list string)
    (startYear : Z) : result Plan :=
  st ← run (courseLookup catalog) catalog startYear
           (initialState requirements catalog completedCourses) terms;
  mret (finalOutput st).

End WithSort.

Definition generatePlan
    : list Requirement → list Course → list string → Z → result Plan :=
  generatePlanWith sort_by_offerings.

End Planner.

(** ** The requirement resolver *)

Module Resolver.

(** What awaiting one [db.query] call gives: the rows, or a rejection. *)
Inductive QueryResult (A : Type) : Type :=
  | Rows (rows : list A)
  | Rejected (cause : string).
Arguments Rows {A} rows.
Arguments Rejected {A} cause.

Definition await {A} (q : QueryResult A) : result (list A) :=
  match q with
  | Rows rows => Return rows
  | Rejected cause => Throw (DbFailure cause)
  end.

Record ProgramRow : Type := { row_program_id : Z }.

(** The data layer as [getRequirements] sees it: one answer for each of
    its three queries. *)
Record Database : Type := {
  programIdsQuery : list string → QueryResult ProgramRow;
  requirementsQuery : list Z → QueryResult Requirement;
  coursesQuery : QueryResult Course
}.

Record Resolved : Type := {
  requirements : list Requirement;
  catalog : list Course
}.

(** [Boolean(x)] for a program name that may be null. *)
Definition truthy (x : option string) : option string :=
  match x with
  | Some s => if decide (s = EmptyString) then None else Some s
  | None => None
  end.

Definition NotFoundError : exn :=
  Error "No programs found for the selected options.".

Definition getRequirements (db : Database)
    (major minor concentration : option string) : result Resolved :=
  let programs := omap truthy [major; minor; concentration] in
  programIdResult ← await (programIdsQuery db programs);
  let ids := row_program_id <$> programIdResult in
  if decide (length ids = 0%nat) then Throw NotFoundError
  else
    requirementsResult ← await (requirementsQuery db ids);
    courseCatalogResult ← await (coursesQuery db);
    mret {| requirements := requirementsResult;
            catalog := courseCatalogResult |}.

End Resolver.

Import Planner.

(** ** Vocabulary of the specification *)

(** Identifiers placed in the slots, in plan order. *)
Definition scheduled_ids (slots : list ScheduleSlot) : list string :=
  slot ← slots; id <$> courses slot.

Definition unmet_ids (p : Plan) : list string :=
  unmet_course_id <$> unmet_requirements p.

Definition occurrences (i : string) (l : list string) : nat :=
  length (filter (λ j, j = i) l).

(** The required set in the words of the specification: the identifiers of
    some requirement's pool that the catalog knows, minus the completed
    ones. *)
Definition required (requirements : list Requirement)
    (catalog : list Course) (completedCourses : list string)
    (i : string) : Prop :=
  (∃ req ids, req ∈ requirements ∧ options_pool req = IdArray ids ∧ i ∈ ids)
  ∧ (∃ c, c ∈ catalog ∧ course_id c = i)
  ∧ i ∉ completedCourses.

Definition total_credits (cs : list SlotCourse) : Z :=
  foldr (λ e acc, slot_course_credits e + acc) 0 cs.

(** Number of terms a course is offered in; the sort key. *)
Definition offering_count (c : Course) : nat :=
  length (default [] (semesters_offered c)).

Definition by_offerings (a b : Course) : Prop :=
  (offering_count a ≤ offering_count b)%nat.

Definition has_offerings (c : Course) : Prop :=
  is_Some (semesters_offered c).

(** [l'] is [l] sorted stably by offering count: ascending, and courses
    with equal counts keep their order. *)
Definition stable_sort_of (l l' : list Course) : Prop :=
  StronglySorted by_offerings l'
  ∧ l' ≡ₚ l
  ∧ ∀ k, filter (λ c, offering_count c = k) l'
         = filter (λ c, offering_count c = k) l.

(** What the language standard promises of [sort] when the comparator
    never throws. *)
Definition conforming (sort : list Course → result (list Course)) : Prop :=
  ∀ l, Forall has_offerings l → ∃ l', sort l = Return l' ∧ stable_sort_of l l'.

(** The prerequisite rule in the words of the specification: each
    prerequisite of a course in slot [k] is a completed course or is in a
    slot before [k]. *)
Definition respects (lookup : gmap string Course)
    (completedCourses : list string) (slots : list ScheduleSlot) : Prop :=
  ∀ k slot e c ps q,
    slots !! k = Some slot →
    e ∈ courses slot →
    lookup !! id e = Some c →
    prerequisites c = Some ps →
    q ∈ ps →
    q ∈ completedCourses ∨ q ∈ scheduled_ids (take k slots).

Definition prerequisites_respected (catalog : list Course)
    (completedCourses : list string) (p : Plan) : Prop :=
  respects (courseLookup catalog) completedCourses (schedule p).

(** The identifiers whose dependents have been decremented once the slots
    [slots] are filled: the completed courses the catalog knows, then the
    scheduled ones. *)
Definition satisfied (lookup : gmap string Course)
    (completedCourses : list string) (slots : list ScheduleSlot)
    : list string :=
  filter (λ i, is_Some (lookup !! i)) completedCourses
  ++ scheduled_ids slots.

(** What the counter of [c] should read after the decrements for
    [events]. *)
Definition unmet_count (events : list string) (c : Course) : Z :=
  prereq_count c
  - Z.of_nat (length (filter (λ e, lists_prerequisite e c) events)).

Definition counts_track (catalog : list Course) (events : list string)
    (status : gmap string jsnum) : Prop :=
  ∀ c, c ∈ catalog →
    status !! course_id c = Some (Num (unmet_count events c)).

(** No counter of a catalog course is negative. *)
Definition counters_nonnegative (catalog : list Course)
    (status : gmap string jsnum) : Prop :=
  ∀ c, c ∈ catalog → ∃ n, status !! course_id c = Some (Num n) ∧ 0 ≤ n.

(** The slots of a plan that hold the identifier [i]. *)
Definition slots_holding (i : string) (p : Plan) : list ScheduleSlot :=
  filter (λ s, i ∈ id <$> courses s) (schedule p).

(** The labels of the eight slots of a plan that starts in [startYear]. *)
Definition eight_terms (startYear : Z) : list (Z * string) :=
  [(startYear, "Fall"); (startYear, "Spring");
   (startYear + 1, "Fall"); (startYear + 1, "Spring");
   (startYear + 2, "Fall"); (startYear + 2, "Spring");
   (startYear + 3, "Fall"); (startYear + 3, "Spring")]%string.

(** What holds of a finished slot: its stored total is the sum of its
    courses and is within the cap, and each of its courses is the catalog
    entry of its identifier, offered in the slot's term. *)
Definition slot_ok (lookup : gmap string Course) (s : ScheduleSlot) : Prop :=
  slot_credits s = total_credits (courses s)
  ∧ slot_credits s ≤ MAX_CREDITS
  ∧ Forall (λ e, ∃ c, lookup !! id e = Some c ∧ e = slot_entry c
                      ∧ isOffered (semester s) c)
           (courses s).

(** The loop invariant, after the terms [visited]: the scheduled
    identifiers and the pool split the initial pool [pool0], the slots
    carry the labels of the visited terms, and every slot is well formed. *)
Record invariant (lookup : gmap string Course) (pool0 : list string)
    (startYear : Z) (visited : list (Z * string)) (st : State) : Prop := {
  inv_split : scheduled_ids (plan_so_far st) ++ coursePool st ≡ₚ pool0;
  inv_labels :
    (λ s, (year s, semester s)) <$> plan_so_far st
    = (λ t, (startYear + t.1, t.2)) <$> visited;
  inv_slots : Forall (slot_ok lookup) (plan_so_far st)
}.

(** What holds of the counters between two terms: they track the
    satisfied identifiers, the slots filled so far respect the
    prerequisite rule, and the counter map is the initial one after one
    catalog scan for each satisfied identifier. *)
Record tracking (lookup : gmap string Course) (catalog : list Course)
    (completedCourses : list string) (st : State) : Prop := {
  track_counts :
    counts_track catalog
      (satisfied lookup completedCourses (plan_so_far st))
      (prereqStatus st);
  track_slots : respects lookup completedCourses (plan_so_far st);
  track_history :
    prereqStatus st
    = foldl (satisfy catalog) (initializePrereqStatus catalog)
            (satisfied lookup completedCourses (plan_so_far st))
}.

(** The state of the loop once the slots [slots] are filled, read off
    the inputs and the slots: the initial pool without the scheduled
    identifiers, and the initial counters after one catalog scan for each
    satisfied identifier. *)
Definition state_after (requirements : list Requirement)
    (catalog : list Course) (completedCourses : list string)
    (slots : list ScheduleSlot) : State :=
  {| coursePool :=
       filter (λ i, i ∉ scheduled_ids slots)
              (initialPool requirements (courseLookup catalog)
                           completedCourses);
     prereqStatus :=
       foldl (satisfy catalog) (initializePrereqStatus catalog)
             (satisfied (courseLookup catalog) completedCourses slots);
     plan_so_far := slots |}.

(** ** Sample data *)

Definition course (i : string) (cr : Z) (pre off : option (list string))
    : Course :=
  {| course_id := i; name := i; credits := cr;
     prerequisites := pre; semesters_offered := off |}.

Definition requirement (pool : OptionsPool) : Requirement :=
  {| program_id := 1; program_name := "Computer Science";
     options_pool := pool |}.

(** A course taught in spring only: the first fall term stays empty. *)
Definition spring_catalog : list Course :=
  [course "S" 4 (Some []) (Some ["Spring"])]%string.

(** Three courses of which the first two do not fit together. *)
Definition crowded_catalog : list Course :=
  [course "A" 10 None (Some ["Fall"]);
   course "B" 10 None (Some ["Fall"]);
   course "C" 3 None (Some ["Fall"])]%string.

(** [Y] needs [X] and [W]. *)
Definition chain_catalog : list Course :=
  [course "X" 4 (Some []) (Some ["Fall"; "Spring"]);
   course "W" 4 (Some []) (Some ["Fall"]);
   course "Y" 4 (Some ["X"; "W"]) (Some ["Fall"])]%string.

(** [Y] needs [X] only. *)
Definition pair_catalog : list Course :=
  [course "X" 4 (Some []) (Some ["Fall"]);
   course "Y" 4 (Some ["X"]) (Some ["Fall"])]%string.

(** The four scenarios of the specification. *)
Definition scenario_a : list Course :=
  [course "X" 3 (Some []) (Some ["Fall"])]%string.

Definition scenario_b : list Course :=
  [course "X" 3 (Some []) (Some ["Fall"]);
   course "Y" 3 (Some ["X"]) (Some ["Spring"])]%string.

Definition scenario_c : list Course :=
  [course "Z" 20 (Some []) (Some ["Fall"])]%string.

Definition scenario_d : list Course :=
  [course "P" 9 (Some []) (Some ["Fall"; "Spring"]);
   course "Q" 8 (Some []) (Some ["Fall"])]%string.

(** The identifiers of each slot, the unmet identifiers and the message
    of a completion. *)
Definition summary (r : result Plan)
    : option (list (Z * string * list string * Z) * list string * string) :=
  match r with
  | Return p =>
      Some ((λ s, (year s, semester s, id <$> courses s, slot_credits s))
              <$> schedule p,
            unmet_ids p, message p)
  | Throw _ => None
  end.


(** ** Vocabulary of the further properties *)

(** The identifiers the requirement rows offer, row after row; a row
    without an array offers none. *)
Definition pool_ids (requirements : list Requirement) : list string :=
  req ← requirements;
  match options_pool req with
  | IdArray ids => ids
  | Absent | NotAnArray => []
  end.

(** A list without its repetitions, each element at its first place. *)
Fixpoint first_occurrences (l : list string) : list string :=
  match l with
  | [] => []
  | x :: l' => x :: filter (λ y, y ≠ x) (first_occurrences l')
  end.

(** The completed identifiers that the catalog knows. *)
Definition known_completed (lookup : gmap string Course)
    (completedCourses : list string) : list string :=
  filter (λ i, is_Some (lookup !! i)) completedCourses.

(** The plan in which nothing is scheduled and nothing is unmet. *)
Definition empty_plan (startYear : Z) : Plan :=
  {| schedule := emptySlot startYear <$> terms;
     unmet_requirements := [];
     message :=
       "Plan generated successfully, with 0 requirements left unmet." |}.

(** A slot moved [d] years later. *)
Definition shift_year (d : Z) (s : ScheduleSlot) : ScheduleSlot :=
  {| year := year s + d;
     semester := semester s;
     courses := courses s;
     slot_credits := slot_credits s |}.

(** Each prerequisite of a course in slot [k] is among the identifiers
    satisfied before slot [k] was filled. *)
Definition prerequisites_satisfied (lookup : gmap string Course)
    (completedCourses : list string) (slots : list ScheduleSlot) : Prop :=
  ∀ k slot e c ps q,
    slots !! k = Some slot →
    e ∈ courses slot →
    lookup !! id e = Some c →
    prerequisites c = Some ps →
    q ∈ ps →
    q ∈ satisfied lookup completedCourses (take k slots).

(** The courses of a slot are in ascending order of offering count. *)
Definition slot_sorted (lookup : gmap string Course) (s : ScheduleSlot)
    : Prop :=
  ∃ picked,
    courses s = slot_entry <$> picked
    ∧ Forall (λ c, lookup !! course_id c = Some c) picked
    ∧ StronglySorted by_offerings picked.

(** ** Completions *)

Lemma bind_Return {A B} (f : A → result B) (a : A) :
  Return a ≫= f = f a.
Proof. reflexivity. Qed.

Lemma bind_Return_inv {A B} (f : A → result B) (m : result A) (b : B) :
  m ≫= f = Return b → ∃ a, m = Return a ∧ f a = Return b.
Proof. destruct m as [a|e]; [eauto | discriminate]. Qed.

Lemma mapM_defined {A} (lookup : gmap string A) (l : list string) :
  Forall (λ i, is_Some (lookup !! i)) l →
  ∃ cs, mapM (λ i, defined (lookup !! i)) l = Return cs
        ∧ Forall2 (λ i c, lookup !! i = Some c) l cs.
Proof.
  induction 1 as [|i l [c Hc] _ (cs & Hcs & HF)].
  - exists []. split; [reflexivity | constructor].
  - exists (c :: cs). split.
    + cbn. rewrite Hc. cbn. fold (mapM (λ i, defined (lookup !! i)) l).
      rewrite Hcs. reflexivity.
    + by constructor.
Qed.

(** ** The lookup table *)

Lemma courseLookup_snoc (catalog : list Course) (c : Course) :
  courseLookup (catalog ++ [c]) = <[course_id c := c]> (courseLookup catalog).
Proof. unfold courseLookup. by rewrite foldl_app. Qed.

(** An entry of the table is a catalog course stored under its own
    identifier. *)
Lemma courseLookup_Some (catalog : list Course) (i : string) (c : Course) :
  courseLookup catalog !! i = Some c → course_id c = i ∧ c ∈ catalog.
Proof.
  induction catalog as [|d catalog IH] using rev_ind.
  - unfold courseLookup. cbn. by rewrite lookup_empty.
  - rewrite courseLookup_snoc, lookup_insert. case_decide as Hd.
    + intros [= <-]. split; [done |]. apply elem_of_app. right.
      by apply list_elem_of_singleton.
    + intros H. destruct (IH H) as [? ?]. split; [done |].
      apply elem_of_app. by left.
Qed.

Lemma courseLookup_is_Some (catalog : list Course) (i : string) :
  is_Some (courseLookup catalog !! i) ↔ ∃ c, c ∈ catalog ∧ course_id c = i.
Proof.
  split.
  - intros [c Hc]. exists c. by destruct (courseLookup_Some _ _ _ Hc).
  - intros (c & Hin & <-).
    induction catalog as [|d catalog IH] using rev_ind.
    + by apply elem_of_nil in Hin.
    + rewrite courseLookup_snoc, lookup_insert. case_decide; [by eexists |].
      apply IH. apply elem_of_app in Hin as [?|Hd]; [done |].
      apply list_elem_of_singleton in Hd. congruence.
Qed.

(** ** The scheduling pool *)

Lemma set_add_elem (x y : string) (s : list string) :
  y ∈ set_add x s ↔ y ∈ s ∨ y = x.
Proof.
  unfold set_add. case_decide.
  - split; [by left | intros [?| ->]; done].
  - rewrite elem_of_app, list_elem_of_singleton. done.
Qed.

Lemma set_add_NoDup (x : string) (s : list string) :
  NoDup s → NoDup (set_add x s).
Proof.
  intros Hs. unfold set_add. case_decide; [done |].
  apply NoDup_app. split_and!; [done | | apply NoDup_singleton].
  intros y Hy Hx. apply list_elem_of_singleton in Hx. congruence.
Qed.

Lemma add_options_elem (lookup : gmap string Course)
    (ids s : list string) (y : string) :
  y ∈ foldl (add_option lookup) s ids
  ↔ y ∈ s ∨ (y ∈ ids ∧ is_Some (lookup !! y)).
Proof.
  revert s. induction ids as [|i ids IH]; intros s; cbn.
  - rewrite elem_of_nil. tauto.
  - rewrite IH, elem_of_cons. unfold add_option. case_decide as Hi.
    + rewrite set_add_elem. split; [intros [[?| ->]|?] | intros [?|[[-> |?] ?]]];
        tauto.
    + split; [tauto |]. intros [?|[[-> |?] ?]]; tauto.
Qed.

Lemma add_options_NoDup (lookup : gmap string Course)
    (ids s : list string) :
  NoDup s → NoDup (foldl (add_option lookup) s ids).
Proof.
  revert s. induction ids as [|i ids IH]; intros s Hs; cbn; [done |].
  apply IH. unfold add_option. case_decide; [by apply set_add_NoDup | done].
Qed.

Lemma add_requirements_elem (lookup : gmap string Course)
    (requirements : list Requirement) (s : list string) (y : string) :
  y ∈ foldl (add_requirement lookup) s requirements
  ↔ y ∈ s ∨ ((∃ req ids, req ∈ requirements
                          ∧ options_pool req = IdArray ids ∧ y ∈ ids)
             ∧ is_Some (lookup !! y)).
Proof.
  revert s. induction requirements as [|r rs IH]; intros s; cbn.
  - split; [by left |]. intros [?|[(? & ? & H & _) _]]; [done |].
    by apply elem_of_nil in H.
  - rewrite IH. unfold add_requirement.
    assert ((∃ req ids, req ∈ r :: rs
                        ∧ options_pool req = IdArray ids ∧ y ∈ ids)
            ↔ (∃ ids, options_pool r = IdArray ids ∧ y ∈ ids)
              ∨ (∃ req ids, req ∈ rs
                            ∧ options_pool req = IdArray ids ∧ y ∈ ids))
      as ->.
    { setoid_rewrite elem_of_cons. naive_solver. }
    destruct (options_pool r) as [| |ids]; [naive_solver .. |].
    rewrite add_options_elem. naive_solver.
Qed.

Lemma add_requirements_NoDup (lookup : gmap string Course)
    (requirements : list Requirement) (s : list string) :
  NoDup s → NoDup (foldl (add_requirement lookup) s requirements).
Proof.
  revert s. induction requirements as [|r rs IH]; intros s Hs; cbn; [done |].
  apply IH. unfold add_requirement.
  destruct (options_pool r); [done .. |]. by apply add_options_NoDup.
Qed.

Lemma delete_all_elem (completed s : list string) (y : string) :
  y ∈ foldl (λ s i, set_delete i s) s completed ↔ y ∈ s ∧ y ∉ completed.
Proof.
  revert s. induction completed as [|i completed IH]; intros s; cbn.
  - rewrite elem_of_nil. tauto.
  - rewrite IH. unfold set_delete. rewrite list_elem_of_filter, elem_of_cons.
    tauto.
Qed.

Lemma delete_all_NoDup (completed s : list string) :
  NoDup s → NoDup (foldl (λ s i, set_delete i s) s completed).
Proof.
  revert s. induction completed as [|i completed IH]; intros s Hs; cbn;
    [done |].
  apply IH. by apply NoDup_filter.
Qed.

Lemma initialPool_NoDup (requirements : list Requirement)
    (lookup : gmap string Course) (completedCourses : list string) :
  NoDup (initialPool requirements lookup completedCourses).
Proof.
  apply delete_all_NoDup, add_requirements_NoDup. constructor.
Qed.

(** The pool the code builds is the required set of the specification. *)
Lemma initialPool_required (requirements : list Requirement)
    (catalog : list Course) (completedCourses : list string) (i : string) :
  i ∈ initialPool requirements (courseLookup catalog) completedCourses
  ↔ required requirements catalog completedCourses i.
Proof.
  unfold initialPool, requiredCourseIDs, required.
  rewrite delete_all_elem, add_requirements_elem, courseLookup_is_Some,
    elem_of_nil.
  tauto.
Qed.

(** ** Sorting by offering count *)

Lemma compare_offerings_Return (a b : Course) :
  has_offerings a → has_offerings b →
  compare_offerings a b
  = Return (Z.of_nat (offering_count a) - Z.of_nat (offering_count b)).
Proof.
  intros [la Ha] [lb Hb]. unfold compare_offerings, offering_count.
  rewrite Ha, Hb. reflexivity.
Qed.

Lemma sort_insert_spec (x : Course) (l : list Course) :
  has_offerings x → Forall has_offerings l →
  StronglySorted by_offerings l →
  ∃ l', sort_insert x l = Return l' ∧ stable_sort_of (x :: l) l'.
Proof.
  intros Hx Hl Hs. induction l as [|y l IH]; cbn.
  - exists [x]. split; [reflexivity |]. split_and!; [| done ..].
    repeat constructor.
  - apply Forall_cons in Hl as [Hy Hl]. apply StronglySorted_inv in Hs as [Hs Hyl].
    rewrite (compare_offerings_Return x y Hx Hy), bind_Return.
    destruct (Z.leb_spec (Z.of_nat (offering_count x)
                          - Z.of_nat (offering_count y)) 0) as [Hle|Hgt].
    + exists (x :: y :: l). split; [reflexivity |]. split_and!; [| done ..].
      assert (by_offerings x y) as Hxy by (unfold by_offerings; lia).
      constructor; [by constructor |]. constructor; [done |].
      eapply Forall_impl; [exact Hyl |]. unfold by_offerings in *. lia.
    + destruct (IH Hl Hs) as (l' & -> & Hs' & Hp & Hf). rewrite bind_Return.
      exists (y :: l'). split; [reflexivity |]. split_and!.
      * constructor; [done |]. rewrite Hp. constructor; [| done].
        unfold by_offerings. lia.
      * rewrite Hp. apply Permutation_swap.
      * intros k. rewrite !filter_cons, Hf, filter_cons.
        repeat case_decide; try done; lia.
Qed.

Lemma sort_by_offerings_conforming : conforming sort_by_offerings.
Proof.
  intros l. induction 1 as [|x l Hx Hl (l' & Hl' & Hs & Hp & Hf)]; cbn.
  - exists []. split; [reflexivity |]. split_and!; [constructor | done ..].
  - rewrite Hl', bind_Return.
    destruct (sort_insert_spec x l' Hx) as (l'' & -> & Hs' & Hp' & Hf');
      [by rewrite Hp | done |].
    exists l''. split; [reflexivity |]. split_and!; [done | |].
    + by rewrite Hp', Hp.
    + intros k. by rewrite Hf', !filter_cons, Hf.
Qed.

(** Two ascending lists that agree on every class of equal keys are
    equal. *)
Lemma sorted_classes_eq (l1 l2 : list Course) :
  StronglySorted by_offerings l1 → StronglySorted by_offerings l2 →
  (∀ k, filter (λ c, offering_count c = k) l1
        = filter (λ c, offering_count c = k) l2) →
  l1 = l2.
Proof.
  revert l2. induction l1 as [|a l1 IH]; intros [|b l2] H1 H2 Hf.
  - done.
  - specialize (Hf (offering_count b)). by rewrite filter_cons_True in Hf.
  - specialize (Hf (offering_count a)). by rewrite filter_cons_True in Hf.
  - apply StronglySorted_inv in H1 as [H1 Ha], H2 as [H2 Hb].
    rewrite Forall_forall in Ha, Hb.
    assert (offering_count a = offering_count b) as Hk.
    { apply Nat.le_antisymm.
      - assert (b ∈ a :: l1) as Hin.
        { eapply (list_elem_of_filter (λ c, offering_count c = offering_count b)).
          rewrite Hf, filter_cons_True by done. left. }
        apply elem_of_cons in Hin as [-> |Hin]; [done | by apply Ha].
      - assert (a ∈ b :: l2) as Hin.
        { eapply (list_elem_of_filter (λ c, offering_count c = offering_count a)).
          rewrite <- Hf, filter_cons_True by done. left. }
        apply elem_of_cons in Hin as [-> |Hin]; [done | by apply Hb]. }
    pose proof (Hf (offering_count a)) as Hfa.
    rewrite !filter_cons_True in Hfa by done. injection Hfa as -> Hfa.
    f_equal. apply IH; [done .. |]. intros k.
    destruct (decide (offering_count b = k)) as [<- |Hne]; [done |].
    specialize (Hf k). by rewrite !filter_cons_False in Hf.
Qed.

Lemma stable_sort_unique (l l1 l2 : list Course) :
  stable_sort_of l l1 → stable_sort_of l l2 → l1 = l2.
Proof.
  intros (H1 & _ & Hf1) (H2 & _ & Hf2). apply sorted_classes_eq; [done .. |].
  intros k. by rewrite Hf1, Hf2.
Qed.

Lemma eligible_has_offerings (status : gmap string jsnum) (sem : string)
    (c : Course) :
  eligible status sem c → has_offerings c.
Proof.
  unfold eligible, isOffered, has_offerings.
  destruct (semesters_offered c); [by eexists | done].
Qed.

(** Every conforming [sort] orders the eligible courses the way the
    insertion sort does. *)
Lemma conforming_sort_eq (sort : list Course → result (list Course))
    (status : gmap string jsnum) (sem : string) (cs : list Course) :
  conforming sort →
  sort (filter (λ c, eligible status sem c) cs)
  = sort_by_offerings (filter (λ c, eligible status sem c) cs).
Proof.
  intros Hsort.
  assert (Forall has_offerings (filter (λ c, eligible status sem c) cs)) as HF.
  { apply Forall_forall. intros c [Hc _]%list_elem_of_filter.
    by eapply eligible_has_offerings. }
  destruct (Hsort _ HF) as (l1 & -> & H1).
  destruct (sort_by_offerings_conforming _ HF) as (l2 & -> & H2).
  f_equal. by eapply stable_sort_unique.
Qed.

(** ** Filling a slot *)

Lemma total_credits_app (l k : list SlotCourse) :
  total_credits (l ++ k) = total_credits l + total_credits k.
Proof.
  unfold total_credits. induction l as [|e l IH]; cbn; [done |]. lia.
Qed.

Lemma consider_fits (st : ScheduleSlot * list string) (c : Course) :
  slot_credits st.1 + credits c ≤ MAX_CREDITS →
  consider st c
  = ({| year := year st.1;
        semester := semester st.1;
        courses := courses st.1 ++ [slot_entry c];
        slot_credits := slot_credits st.1 + credits c |},
     st.2 ++ [course_id c]).
Proof. intros H%Z.leb_le. unfold consider. by rewrite H. Qed.

Lemma consider_overflows (st : ScheduleSlot * list string) (c : Course) :
  MAX_CREDITS < slot_credits st.1 + credits c → consider st c = st.
Proof. intros H%Z.leb_gt. unfold consider. by rewrite H. Qed.

Lemma consider_walk (st : ScheduleSlot * list string) (es : list Course) :
  ∃ picked,
    picked `sublist_of` es
    ∧ courses (foldl consider st es).1
      = courses st.1 ++ (slot_entry <$> picked)
    ∧ (foldl consider st es).2 = st.2 ++ (course_id <$> picked)
    ∧ slot_credits (foldl consider st es).1
      = slot_credits st.1 + total_credits (slot_entry <$> picked)
    ∧ year (foldl consider st es).1 = year st.1
    ∧ semester (foldl consider st es).1 = semester st.1
    ∧ (slot_credits st.1 ≤ MAX_CREDITS →
       slot_credits (foldl consider st es).1 ≤ MAX_CREDITS).
Proof.
  revert st. induction es as [|c es IH]; intros st; cbn.
  - exists []. cbn. rewrite !app_nil_r. split_and!; try done.
    unfold total_credits. cbn. lia.
  - destruct (IH (consider st c))
      as (picked & Hsub & Hc & Hi & Hcr & Hy & Hsem & Hmax).
    destruct (Z.le_gt_cases (slot_credits st.1 + credits c) MAX_CREDITS)
      as [Hfit|Hover].
    + rewrite (consider_fits st c Hfit) in *. cbn in *.
      exists (c :: picked).
      rewrite Hc, Hi, <- !app_assoc.
      split_and!; try done; [by constructor | | intros _; by apply Hmax].
      rewrite Hcr. unfold total_credits. cbn. lia.
    + rewrite (consider_overflows st c) in * by lia.
      exists picked. split_and!; try done. by constructor.
Qed.

(** ** Updating the pool *)

Lemma update_pool (catalog : list Course) (ids pool : list string)
    (status : gmap string jsnum) :
  (foldl (update catalog) (pool, status) ids).1
  = filter (λ i, i ∉ ids) pool.
Proof.
  revert pool status. induction ids as [|j ids IH]; intros pool status.
  - cbn. induction pool as [|i pool IHp]; [done |].
    rewrite filter_cons_True by apply not_elem_of_nil. by f_equal.
  - change (foldl (update catalog) (pool, status) (j :: ids))
      with (foldl (update catalog)
                  (filter (λ i, i ≠ j) pool, satisfy catalog status j) ids).
    rewrite IH, list_filter_filter. apply list_filter_iff. intros i.
    rewrite elem_of_cons. naive_solver.
Qed.

Lemma update_status (catalog : list Course) (ids pool : list string)
    (status : gmap string jsnum) :
  (foldl (update catalog) (pool, status) ids).2
  = foldl (satisfy catalog) status ids.
Proof.
  revert pool status. induction ids as [|j ids IH]; intros pool status;
    [done |].
  change (foldl (update catalog) (pool, status) (j :: ids))
    with (foldl (update catalog)
                (filter (λ i, i ≠ j) pool, satisfy catalog status j) ids).
  by rewrite IH.
Qed.

Lemma split_scheduled (ids pool : list string) :
  NoDup pool → ids ⊆+ pool → ids ++ filter (λ i, i ∉ ids) pool ≡ₚ pool.
Proof.
  intros Hpool Hsub.
  assert (NoDup ids) as Hids.
  { destruct (submseteq_Permutation _ _ Hsub) as [k Hk]. rewrite Hk in Hpool.
    by apply NoDup_app in Hpool as [? _]. }
  apply NoDup_Permutation; [| done |].
  - apply NoDup_app. split_and!; [done | | by apply NoDup_filter].
    intros i Hi [Hni _]%list_elem_of_filter. done.
  - intros i. rewrite elem_of_app, list_elem_of_filter. split.
    + intros [Hi|[_ Hi]]; [| done].
      eapply elem_of_submseteq; [exact Hi | exact Hsub].
    + intros Hi. destruct (decide (i ∈ ids)); [by left | by right].
Qed.

(** ** The term loop *)

Lemma scheduled_ids_snoc (slots : list ScheduleSlot) (s : ScheduleSlot) :
  scheduled_ids (slots ++ [s]) = scheduled_ids slots ++ (id <$> courses s).
Proof. unfold scheduled_ids. rewrite bind_app. cbn. by rewrite app_nil_r. Qed.

Section Loop.

Variable sort : list Course → result (list Course).
Hypothesis sort_conforming : conforming sort.

Variable lookup : gmap string Course.
Variable catalog : list Course.
Variable startYear : Z.

Hypothesis lookup_keys : ∀ i c, lookup !! i = Some c → course_id c = i.

(** What one term does to a state whose pool the catalog knows: it picks
    some of the eligible courses, fills a slot with them within the cap,
    takes them out of the pool and decrements their dependents. *)
Lemma scheduleSemester_step (st : State) (t : Z * string) :
  NoDup (coursePool st) →
  Forall (λ i, is_Some (lookup !! i)) (coursePool st) →
  ∃ picked slot,
    scheduleSemester sort lookup catalog startYear st t
    = Return {| coursePool :=
                  filter (λ i, i ∉ course_id <$> picked) (coursePool st);
                prereqStatus :=
                  foldl (satisfy catalog) (prereqStatus st)
                        (course_id <$> picked);
                plan_so_far := plan_so_far st ++ [slot] |}
    ∧ year slot = startYear + t.1
    ∧ semester slot = t.2
    ∧ courses slot = slot_entry <$> picked
    ∧ slot_credits slot = total_credits (courses slot)
    ∧ slot_credits slot ≤ MAX_CREDITS
    ∧ course_id <$> picked ⊆+ coursePool st
    ∧ Forall (λ c, lookup !! course_id c = Some c
                   ∧ eligible (prereqStatus st) t.2 c) picked.
Proof.
  intros Hnd Hknown.
  destruct (mapM_defined lookup _ Hknown) as (cs & Hcs & HF2).
  assert (course_id <$> cs = coursePool st) as Hids.
  { clear -HF2 lookup_keys. induction HF2 as [|i c l k Hic _ IH]; [done |].
    cbn. by rewrite IH, (lookup_keys i c Hic). }
  assert (∀ c, c ∈ cs → lookup !! course_id c = Some c) as Hself.
  { clear -HF2 lookup_keys. intros c Hc.
    induction HF2 as [|i d l k Hid _ IH]; [by apply elem_of_nil in Hc |].
    apply elem_of_cons in Hc as [-> |Hc]; [| by apply IH].
    by rewrite (lookup_keys i d Hid). }
  set (filtered := filter (λ c, eligible (prereqStatus st) t.2 c) cs).
  assert (Forall has_offerings filtered) as Hoff.
  { apply Forall_forall. intros c [Hc _]%list_elem_of_filter.
    by eapply eligible_has_offerings. }
  destruct (sort_conforming filtered Hoff) as (es & Hes & _ & Hperm & _).
  destruct (consider_walk (emptySlot startYear t, []) es)
    as (picked & Hsub & Hc & Hi & Hcr & Hy & Hsem & Hmax).
  cbn in Hc, Hi, Hcr, Hy, Hsem, Hmax.
  exists picked, (fill (emptySlot startYear t) es).1.
  unfold scheduleSemester, eligibleCourses.
  rewrite Hcs, bind_Return. fold filtered. rewrite Hes, bind_Return.
  unfold fill. rewrite Hi, update_pool, update_status.
  split_and!; [done .. | | | |].
  - rewrite Hcr, Hc. lia.
  - apply Hmax. unfold MAX_CREDITS. lia.
  - rewrite <- Hids. apply fmap_submseteq.
    etrans; [by apply sublist_submseteq |]. rewrite Hperm.
    apply sublist_submseteq, sublist_filter.
  - apply Forall_forall. intros c Hin.
    assert (c ∈ filtered) as [Helig Hcs']%list_elem_of_filter.
    { rewrite <- Hperm. eapply elem_of_submseteq; [exact Hin |].
      by apply sublist_submseteq. }
    split; [by apply Hself | done].
Qed.

Variable pool0 : list string.

Hypothesis pool0_NoDup : NoDup pool0.
Hypothesis pool0_known : ∀ i, i ∈ pool0 → is_Some (lookup !! i).

Lemma invariant_pool (visited : list (Z * string)) (st : State) :
  invariant lookup pool0 startYear visited st →
  NoDup (coursePool st)
  ∧ Forall (λ i, is_Some (lookup !! i)) (coursePool st).
Proof.
  intros [Hsplit _ _]. split.
  - pose proof pool0_NoDup as H. rewrite <- Hsplit in H.
    by apply NoDup_app in H as (_ & _ & ?).
  - apply Forall_forall. intros i Hi. apply pool0_known. rewrite <- Hsplit.
    apply elem_of_app. by right.
Qed.

Lemma scheduleSemester_invariant (visited : list (Z * string)) (st : State)
    (t : Z * string) :
  invariant lookup pool0 startYear visited st →
  ∃ st', scheduleSemester sort lookup catalog startYear st t = Return st'
         ∧ invariant lookup pool0 startYear (visited ++ [t]) st'.
Proof.
  intros Hinv. destruct (invariant_pool _ _ Hinv) as [Hnd Hknown].
  destruct Hinv as [Hsplit Hlab Hslots].
  destruct (scheduleSemester_step st t Hnd Hknown)
    as (picked & slot & -> & Hy & Hsem & Hc & Hcr & Hmax & Hsub & Helig).
  eexists. split; [reflexivity |]. constructor; cbn.
  - rewrite scheduled_ids_snoc, Hc, <- list_fmap_compose.
    change (id ∘ slot_entry) with course_id.
    by rewrite <- app_assoc, split_scheduled.
  - rewrite !fmap_app, Hlab. cbn. by rewrite Hy, Hsem.
  - apply Forall_app. split; [done |]. apply Forall_singleton.
    split_and!; [done | done |].
    rewrite Hc, Hsem. apply Forall_fmap. eapply Forall_impl; [exact Helig |].
    intros c [Hself Hcan]. exists c. cbn. split_and!; [done | done |].
    unfold eligible in Hcan. by apply andb_True in Hcan as [? _].
Qed.

Lemma run_invariant (ts visited : list (Z * string)) (st : State) :
  invariant lookup pool0 startYear visited st →
  ∃ st', run sort lookup catalog startYear st ts = Return st'
         ∧ invariant lookup pool0 startYear (visited ++ ts) st'.
Proof.
  revert visited st. induction ts as [|t ts IH]; intros visited st Hinv; cbn.
  - exists st. by rewrite app_nil_r.
  - destruct (scheduleSemester_invariant visited st t Hinv)
      as (st1 & -> & Hinv1).
    rewrite bind_Return. destruct (IH _ _ Hinv1) as (st' & Hrun & Hinv').
    exists st'. by rewrite <- app_assoc in Hinv'.
Qed.

End Loop.

(** ** The prerequisite counters *)

Lemma satisfy_cons (d : Course) (l : list Course)
    (status : gmap string jsnum) (i : string) :
  satisfy (d :: l) status i
  = satisfy l (if lists_prerequisite i d then decrement status (course_id d)
               else status) i.
Proof. reflexivity. Qed.

Lemma preseed_cons (lookup : gmap string Course) (catalog : list Course)
    (status : gmap string jsnum) (i : string) (completed : list string) :
  preseed lookup catalog status (i :: completed)
  = preseed lookup catalog
      (match lookup !! i with
       | Some _ => satisfy catalog status i
       | None => status
       end) completed.
Proof. reflexivity. Qed.

Lemma catalog_id_inj (l : list Course) (c d : Course) :
  NoDup (course_id <$> l) → c ∈ l → d ∈ l → course_id c = course_id d →
  c = d.
Proof.
  induction l as [|x l IH]; intros Hnd Hc Hd Heq;
    [by apply elem_of_nil in Hc |].
  cbn in Hnd. apply NoDup_cons in Hnd as [Hx Hl].
  apply elem_of_cons in Hc as [-> |Hc], Hd as [-> |Hd]; [done | | | by apply IH].
  - destruct Hx. rewrite Heq. by apply list_elem_of_fmap_2.
  - destruct Hx. rewrite <- Heq. by apply list_elem_of_fmap_2.
Qed.

Lemma satisfy_untouched (l : list Course) (status : gmap string jsnum)
    (i k : string) :
  k ∉ course_id <$> l → satisfy l status i !! k = status !! k.
Proof.
  revert status. induction l as [|d l IH]; intros status Hk; [done |].
  apply not_elem_of_cons in Hk as [Hkd Hk]. rewrite satisfy_cons, IH by done.
  destruct (lists_prerequisite i d); [| done].
  unfold decrement. by rewrite lookup_insert_ne.
Qed.

(** One scan of a list of courses lowers the counter of each dependent of
    [i] in it by one and leaves the other counters alone. *)
Lemma satisfy_lookup (l : list Course) (status : gmap string jsnum)
    (i : string) (c : Course) :
  NoDup (course_id <$> l) → c ∈ l →
  satisfy l status i !! course_id c
  = if lists_prerequisite i c then Some (minus_one (status !! course_id c))
    else status !! course_id c.
Proof.
  revert status. induction l as [|d l IH]; intros status Hnd Hc.
  - by apply elem_of_nil in Hc.
  - cbn in Hnd. apply NoDup_cons in Hnd as [Hd Hl]. rewrite satisfy_cons.
    apply elem_of_cons in Hc as [-> |Hc].
    + rewrite satisfy_untouched by done.
      destruct (lists_prerequisite i d); [| done].
      unfold decrement. by rewrite lookup_insert_eq.
    + rewrite IH by done.
      assert (course_id d ≠ course_id c) as Hne.
      { intros Heq. apply Hd. rewrite Heq. by apply list_elem_of_fmap_2. }
      destruct (lists_prerequisite i d); [| done].
      unfold decrement. by rewrite !lookup_insert_ne.
Qed.

Lemma preseed_foldl (lookup : gmap string Course) (catalog : list Course)
    (status : gmap string jsnum) (completed : list string) :
  preseed lookup catalog status completed
  = foldl (satisfy catalog) status
          (filter (λ i, is_Some (lookup !! i)) completed).
Proof.
  revert status. induction completed as [|i completed IH]; intros status;
    [done |].
  rewrite preseed_cons, filter_cons, IH.
  destruct (lookup !! i) as [c|] eqn:E.
  - by rewrite decide_True.
  - by rewrite decide_False by (by intros [? ?]).
Qed.

Section Counters.

Variable catalog : list Course.
Hypothesis catalog_ids : NoDup (course_id <$> catalog).

Lemma initializePrereqStatus_tracks :
  counts_track catalog [] (initializePrereqStatus catalog).
Proof.
  unfold counts_track, unmet_count. cbn. setoid_rewrite Z.sub_0_r.
  clear -catalog_ids. revert catalog_ids.
  induction catalog as [|d l IH] using rev_ind; intros Hnd c Hc.
  - by apply elem_of_nil in Hc.
  - rewrite fmap_app in Hnd. apply NoDup_app in Hnd as (Hl & Hdisj & _).
    unfold initializePrereqStatus. rewrite foldl_app. cbn.
    apply elem_of_app in Hc as [Hc|Hc].
    + rewrite lookup_insert_ne; [by apply IH |]. intros Heq.
      apply (Hdisj (course_id c)); [by apply list_elem_of_fmap_2 |].
      rewrite <- Heq. left.
    + apply list_elem_of_singleton in Hc as ->. apply lookup_insert_eq.
Qed.

Lemma satisfy_tracks (events : list string) (status : gmap string jsnum)
    (i : string) :
  counts_track catalog events status →
  counts_track catalog (events ++ [i]) (satisfy catalog status i).
Proof.
  intros H c Hc. rewrite satisfy_lookup, (H c Hc) by done.
  unfold unmet_count. rewrite filter_app, length_app, filter_cons, filter_nil.
  destruct (lists_prerequisite i c) eqn:E.
  - rewrite decide_True by done. cbn. do 2 f_equal. lia.
  - rewrite decide_False by (by intros []). cbn. do 2 f_equal. lia.
Qed.

Lemma satisfy_all_tracks (ids events : list string)
    (status : gmap string jsnum) :
  counts_track catalog events status →
  counts_track catalog (events ++ ids) (foldl (satisfy catalog) status ids).
Proof.
  revert events status. induction ids as [|i ids IH]; intros events status H.
  - by rewrite app_nil_r.
  - cbn. rewrite cons_middle, app_assoc. by apply IH, satisfy_tracks.
Qed.

Lemma preseed_tracks (lookup : gmap string Course)
    (completed events : list string) (status : gmap string jsnum) :
  counts_track catalog events status →
  counts_track catalog
    (events ++ filter (λ i, is_Some (lookup !! i)) completed)
    (preseed lookup catalog status completed).
Proof.
  revert events status.
  induction completed as [|i completed IH]; intros events status H.
  - by rewrite app_nil_r.
  - rewrite preseed_cons, filter_cons.
    destruct (lookup !! i) as [c|] eqn:E.
    + rewrite decide_True by done.
      rewrite cons_middle, app_assoc. by apply IH, satisfy_tracks.
    + rewrite decide_False by (by intros [? ?]). by apply IH.
Qed.

(** With no event counted twice, a counter that tracks the events is
    never negative, and it is zero only when every prerequisite is among
    the events. *)
Lemma dependents_sub (events ps : list string) (c : Course) :
  NoDup events → prerequisites c = Some ps →
  filter (λ e, lists_prerequisite e c) events ⊆+ ps.
Proof.
  intros Hnd Hps. apply NoDup_submseteq; [by apply NoDup_filter |].
  intros e [He _]%list_elem_of_filter. unfold lists_prerequisite in He.
  rewrite Hps in He. exact (bool_decide_unpack _ He).
Qed.

Lemma unmet_count_nonneg (events : list string) (c : Course) :
  NoDup events → 0 ≤ unmet_count events c.
Proof.
  intros Hnd. unfold unmet_count, prereq_count.
  destruct (prerequisites c) as [ps|] eqn:Hps; cbn.
  - pose proof (submseteq_length _ _ (dependents_sub events ps c Hnd Hps)).
    lia.
  - assert (filter (λ e, lists_prerequisite e c) events = []) as ->;
      [| cbn; lia].
    clear -Hps. induction events as [|e events IH]; [done |].
    rewrite filter_cons_False; [done |].
    unfold lists_prerequisite. rewrite Hps. by intros [].
Qed.

Lemma unmet_count_zero (events ps : list string) (c : Course) (q : string) :
  NoDup events → unmet_count events c = 0 →
  prerequisites c = Some ps → q ∈ ps → q ∈ events.
Proof.
  intros Hnd Hzero Hps Hq.
  unfold unmet_count, prereq_count in Hzero. rewrite Hps in Hzero.
  cbn in Hzero.
  assert (filter (λ e, lists_prerequisite e c) events ≡ₚ ps) as Hperm.
  { apply submseteq_length_Permutation; [by apply dependents_sub | lia]. }
  rewrite <- Hperm in Hq. by apply list_elem_of_filter in Hq as [_ ?].
Qed.

Lemma counts_track_nonnegative (events : list string)
    (status : gmap string jsnum) :
  NoDup events → counts_track catalog events status →
  counters_nonnegative catalog status.
Proof.
  intros Hnd H c Hc. exists (unmet_count events c).
  split; [by apply H | by apply unmet_count_nonneg].
Qed.

(** The counters are not negative after any number of steps of a scan,
    as long as the scan is for an identifier not satisfied before. *)
Lemma partial_scan_nonnegative (events : list string)
    (status : gmap string jsnum) (i : string) (m : nat) :
  NoDup (events ++ [i]) → counts_track catalog events status →
  counters_nonnegative catalog (satisfy (take m catalog) status i).
Proof.
  intros Hnd H c Hc.
  assert (NoDup events) as Hnd' by (by apply NoDup_app in Hnd as [? _]).
  assert (NoDup (course_id <$> take m catalog)) as Hm.
  { rewrite fmap_take.
    exact (sublist_NoDup _ _ catalog_ids (sublist_take _ m)). }
  destruct (decide (course_id c ∈ course_id <$> take m catalog)) as [Hin|Hout].
  - apply list_elem_of_fmap in Hin as (d & Heq & Hd).
    assert (c = d) as <-.
    { apply (catalog_id_inj catalog); [done | done | | done].
      eapply subseteq_take, Hd. }
    rewrite satisfy_lookup, (H c Hc) by done.
    destruct (lists_prerequisite i c) eqn:E.
    + exists (unmet_count (events ++ [i]) c).
      split; [| by apply unmet_count_nonneg].
      unfold unmet_count.
      rewrite filter_app, length_app, filter_cons, filter_nil.
      rewrite decide_True by (by rewrite E). cbn. do 2 f_equal. lia.
    + exists (unmet_count events c). split; [done |].
      by apply unmet_count_nonneg.
  - rewrite satisfy_untouched, (H c Hc) by done.
    exists (unmet_count events c). split; [done |].
    by apply unmet_count_nonneg.
Qed.

End Counters.

(** ** The counters along the run *)

Section Tracking.

Variable sort : list Course → result (list Course).
Hypothesis sort_conforming : conforming sort.

Variable requirements : list Requirement.
Variable catalog : list Course.
Variable completedCourses : list string.
Variable startYear : Z.

Hypothesis catalog_ids : NoDup (course_id <$> catalog).
Hypothesis completed_once : NoDup completedCourses.

Abbreviation lookup := (courseLookup catalog).
Abbreviation pool0 := (initialPool requirements lookup completedCourses).

Lemma satisfied_NoDup (visited : list (Z * string)) (st : State) :
  invariant lookup pool0 startYear visited st →
  NoDup (satisfied lookup completedCourses (plan_so_far st)).
Proof.
  intros [Hsplit _ _]. unfold satisfied.
  pose proof (initialPool_NoDup requirements lookup completedCourses) as Hnd.
  rewrite <- Hsplit in Hnd.
  apply NoDup_app in Hnd as (Hs & _ & _).
  apply NoDup_app. split_and!; [by apply NoDup_filter | | done].
  intros i [_ Hi]%list_elem_of_filter Hsched.
  assert (i ∈ pool0) as Hpool.
  { rewrite <- Hsplit. apply elem_of_app. by left. }
  by apply initialPool_required in Hpool as (_ & _ & ?).
Qed.

Lemma scheduleSemester_tracking (visited : list (Z * string)) (st : State)
    (t : Z * string) :
  invariant lookup pool0 startYear visited st →
  tracking lookup catalog completedCourses st →
  ∃ st', scheduleSemester sort lookup catalog startYear st t = Return st'
         ∧ invariant lookup pool0 startYear (visited ++ [t]) st'
         ∧ tracking lookup catalog completedCourses st'.
Proof.
  intros Hinv [Hcounts Hslots Hhist].
  assert (∀ i c, lookup !! i = Some c → course_id c = i) as Hkeys
    by (intros i c H; by destruct (courseLookup_Some catalog i c H)).
  assert (∀ i, i ∈ pool0 → is_Some (lookup !! i)) as Hknown0.
  { intros i Hi. apply courseLookup_is_Some.
    by apply initialPool_required in Hi as (_ & ? & _). }
  pose proof (initialPool_NoDup requirements lookup completedCourses) as Hnd0.
  destruct (invariant_pool lookup startYear pool0 Hnd0 Hknown0 _ _ Hinv)
    as [Hnd Hknown].
  destruct (scheduleSemester_invariant sort sort_conforming lookup catalog
              startYear Hkeys pool0 Hnd0 Hknown0 visited st t Hinv)
    as (st' & Hst' & Hinv').
  exists st'. split_and!; [done | done |].
  pose proof (satisfied_NoDup _ _ Hinv) as Hevents.
  destruct (scheduleSemester_step sort sort_conforming lookup catalog
              startYear Hkeys st t Hnd Hknown)
    as (picked & slot & Hstep & _ & _ & Hc & _ & _ & _ & Helig).
  rewrite Hstep in Hst'. injection Hst' as <-. constructor; cbn.
  - unfold satisfied. rewrite scheduled_ids_snoc, Hc, <- list_fmap_compose.
    change (id ∘ slot_entry) with course_id. rewrite app_assoc.
    by apply satisfy_all_tracks.
  - intros k s e c ps q Hk He Hlook Hps Hq.
    apply lookup_snoc_Some in Hk as [[Hlt Hk]|[-> ->]].
    + rewrite take_app_le by lia. by eapply Hslots.
    + rewrite take_app_length. rewrite Hc in He.
      apply list_elem_of_fmap in He as (c' & -> & Hc').
      rewrite Forall_forall in Helig. destruct (Helig c' Hc') as [Hself Hcan].
      cbn in Hlook. rewrite Hself in Hlook. injection Hlook as ->.
      unfold eligible in Hcan. apply andb_True in Hcan as [_ Hmet].
      unfold prereqsMet in Hmet. apply bool_decide_unpack in Hmet.
      destruct (courseLookup_Some catalog _ _ Hself) as [_ Hin].
      rewrite (Hcounts c Hin) in Hmet. injection Hmet as Hzero.
      pose proof (unmet_count_zero _ ps c q Hevents Hzero Hps Hq) as Hdone.
      unfold satisfied in Hdone.
      apply elem_of_app in Hdone as [[_ ?]%list_elem_of_filter|?]; auto.
  - rewrite Hhist. unfold satisfied.
    rewrite scheduled_ids_snoc, Hc, <- list_fmap_compose.
    change (id ∘ slot_entry) with course_id.
    rewrite <- foldl_app. by rewrite <- app_assoc.
Qed.

Lemma run_tracking (ts visited : list (Z * string)) (st : State) :
  invariant lookup pool0 startYear visited st →
  tracking lookup catalog completedCourses st →
  ∃ st', run sort lookup catalog startYear st ts = Return st'
         ∧ invariant lookup pool0 startYear (visited ++ ts) st'
         ∧ tracking lookup catalog completedCourses st'.
Proof.
  revert visited st.
  induction ts as [|t ts IH]; intros visited st Hinv Htrack; cbn.
  - exists st. by rewrite app_nil_r.
  - destruct (scheduleSemester_tracking visited st t Hinv Htrack)
      as (st1 & -> & Hinv1 & Htrack1).
    rewrite bind_Return.
    destruct (IH _ _ Hinv1 Htrack1) as (st' & Hrun & Hinv' & Htrack').
    exists st'. by rewrite <- app_assoc in Hinv'.
Qed.

Lemma initialState_tracking :
  invariant lookup pool0 startYear []
    (initialState requirements catalog completedCourses)
  ∧ tracking lookup catalog completedCourses
      (initialState requirements catalog completedCourses).
Proof.
  split; [constructor; cbn; [done | done | constructor] |].
  constructor; cbn.
  - unfold satisfied. cbn. rewrite app_nil_r.
    apply (preseed_tracks catalog catalog_ids lookup completedCourses []).
    by apply initializePrereqStatus_tracks.
  - intros k s e c ps q Hk. by rewrite lookup_nil in Hk.
  - unfold satisfied. cbn. rewrite app_nil_r. apply preseed_foldl.
Qed.

End Tracking.

(** ** The run, term by term *)

Lemma filter_all (P : string → Prop) `{!∀ x, Decision (P x)}
    (l : list string) :
  (∀ x, P x) → filter P l = l.
Proof.
  intros HP. induction l as [|x l IH]; [done |].
  rewrite filter_cons_True by done. by f_equal.
Qed.

Lemma run_app (sort : list Course → result (list Course))
    (lookup : gmap string Course) (catalog : list Course) (startYear : Z)
    (ts1 ts2 : list (Z * string)) (st : State) :
  run sort lookup catalog startYear st (ts1 ++ ts2)
  = st' ← run sort lookup catalog startYear st ts1;
    run sort lookup catalog startYear st' ts2.
Proof.
  revert st. induction ts1 as [|t ts1 IH]; intros st; [done |].
  cbn. destruct (scheduleSemester sort lookup catalog startYear st t)
    as [st1|e]; [| done].
  rewrite !bind_Return. apply IH.
Qed.

(** A term that returns appends one slot, removes the identifiers of that
    slot from the pool and scans the catalog once for each of them. *)
Lemma scheduleSemester_Return (sort : list Course → result (list Course))
    (lookup : gmap string Course) (catalog : list Course) (startYear : Z)
    (st st' : State) (t : Z * string) :
  scheduleSemester sort lookup catalog startYear st t = Return st' →
  ∃ slot,
    plan_so_far st' = plan_so_far st ++ [slot]
    ∧ coursePool st'
      = filter (λ i, i ∉ id <$> courses slot) (coursePool st)
    ∧ prereqStatus st'
      = foldl (satisfy catalog) (prereqStatus st) (id <$> courses slot).
Proof.
  unfold scheduleSemester. intros H.
  apply bind_Return_inv in H as (es & _ & H). injection H as <-.
  exists (fill (emptySlot startYear t) es).1. cbn.
  rewrite update_pool, update_status.
  destruct (consider_walk (emptySlot startYear t, []) es)
    as (picked & _ & Hc & Hi & _).
  cbn in Hc, Hi. unfold fill. rewrite Hc, Hi, <- list_fmap_compose.
  by change (id ∘ slot_entry) with course_id.
Qed.

Lemma run_Return_plan (sort : list Course → result (list Course))
    (lookup : gmap string Course) (catalog : list Course) (startYear : Z)
    (ts : list (Z * string)) (st st' : State) :
  run sort lookup catalog startYear st ts = Return st' →
  ∃ slots, plan_so_far st' = plan_so_far st ++ slots
           ∧ length slots = length ts.
Proof.
  revert st. induction ts as [|t ts IH]; intros st H; cbn in H.
  - injection H as <-. exists []. by rewrite app_nil_r.
  - apply bind_Return_inv in H as (st1 & H1 & H).
    destruct (scheduleSemester_Return _ _ _ _ _ _ _ H1) as (slot & Hp & _).
    destruct (IH _ H) as (slots & Hslots & Hlen).
    exists (slot :: slots). rewrite Hslots, Hp, <- app_assoc. cbn.
    by rewrite Hlen.
Qed.

Lemma state_after_nil (requirements : list Requirement)
    (catalog : list Course) (completedCourses : list string) :
  state_after requirements catalog completedCourses []
  = initialState requirements catalog completedCourses.
Proof.
  unfold state_after, initialState, satisfied. cbn.
  rewrite app_nil_r, preseed_foldl. f_equal.
  apply filter_all. intros i. apply not_elem_of_nil.
Qed.

Lemma scheduleSemester_state_after
    (sort : list Course → result (list Course))
    (requirements : list Requirement) (catalog : list Course)
    (completedCourses : list string) (startYear : Z)
    (slots : list ScheduleSlot) (st' : State) (t : Z * string) :
  scheduleSemester sort (courseLookup catalog) catalog startYear
                   (state_after requirements catalog completedCourses slots)
                   t = Return st' →
  st' = state_after requirements catalog completedCourses (plan_so_far st').
Proof.
  intros H.
  destruct (scheduleSemester_Return _ _ _ _ _ _ _ H)
    as (slot & Hplan & Hpool & Hstatus).
  destruct st' as [pool status plan]. cbn in *. subst plan.
  unfold state_after. f_equal.
  - rewrite Hpool, list_filter_filter. apply list_filter_iff. intros i.
    rewrite scheduled_ids_snoc, elem_of_app. tauto.
  - rewrite Hstatus. unfold satisfied.
    rewrite <- foldl_app. by rewrite scheduled_ids_snoc, <- app_assoc.
Qed.

Lemma run_state_after (sort : list Course → result (list Course))
    (requirements : list Requirement) (catalog : list Course)
    (completedCourses : list string) (startYear : Z)
    (ts : list (Z * string)) (slots : list ScheduleSlot) (st' : State) :
  run sort (courseLookup catalog) catalog startYear
      (state_after requirements catalog completedCourses slots) ts
  = Return st' →
  st' = state_after requirements catalog completedCourses (plan_so_far st').
Proof.
  revert slots. induction ts as [|t ts IH]; intros slots H; cbn in H.
  - by injection H as <-.
  - apply bind_Return_inv in H as (st1 & H1 & H).
    rewrite (scheduleSemester_state_after _ _ _ _ _ _ _ _ H1) in H.
    by eapply IH.
Qed.

(** Starting from an empty slot, the walk places nothing exactly when
    every course it meets has more credits than the cap. *)
Lemma walk_empty_iff (st : ScheduleSlot * list string) (es : list Course) :
  courses st.1 = [] → slot_credits st.1 = 0 →
  courses (foldl consider st es).1 = []
  ↔ Forall (λ c, MAX_CREDITS < credits c) es.
Proof.
  revert st. induction es as [|c es IH]; intros st Hnil Hzero; cbn.
  - split; [constructor | done].
  - rewrite Forall_cons.
    destruct (Z.le_gt_cases (slot_credits st.1 + credits c) MAX_CREDITS)
      as [Hfit|Hover].
    + rewrite consider_fits by done.
      destruct (consider_walk
                  ({| year := year st.1; semester := semester st.1;
                      courses := courses st.1 ++ [slot_entry c];
                      slot_credits := slot_credits st.1 + credits c |},
                   st.2 ++ [course_id c]) es) as (picked & _ & Hc & _).
      rewrite Hc. cbn. rewrite Hnil. cbn. split; [done | lia].
    + rewrite consider_overflows by done. rewrite (IH st Hnil Hzero).
      split; [| tauto]. intros H. split; [lia | done].
Qed.

(** A term places nothing exactly when no course of the pool that is
    eligible in it has at most [MAX_CREDITS] credits. *)
Lemma scheduleSemester_stalls_iff (lookup : gmap string Course)
    (catalog : list Course) (startYear : Z) (st st' : State)
    (t : Z * string) (slot : ScheduleSlot) :
  scheduleSemester sort_by_offerings lookup catalog startYear st t
  = Return st' →
  plan_so_far st' = plan_so_far st ++ [slot] →
  courses slot = []
  ↔ ∀ i c, i ∈ coursePool st → lookup !! i = Some c →
      eligible (prereqStatus st) t.2 c → MAX_CREDITS < credits c.
Proof.
  unfold scheduleSemester, eligibleCourses. intros H Hplan.
  apply bind_Return_inv in H as (es & Hes & H).
  apply bind_Return_inv in Hes as (cs & Hcs & Hsort).
  injection H as <-. cbn in Hplan. apply app_inv_head in Hplan.
  injection Hplan as <-.
  set (filtered := filter (λ c, eligible (prereqStatus st) t.2 c) cs) in *.
  assert (Forall has_offerings filtered) as Hoff.
  { apply Forall_forall. intros c [Hc _]%list_elem_of_filter.
    by eapply eligible_has_offerings. }
  destruct (sort_by_offerings_conforming filtered Hoff)
    as (es' & Hes' & _ & Hperm & _).
  rewrite Hsort in Hes'. injection Hes' as <-.
  assert (Forall2 (λ i c, lookup !! i = Some c) (coursePool st) cs) as HF2.
  { clear -Hcs. revert cs Hcs.
    induction (coursePool st) as [|j pool IH]; intros cs Hcs.
    - cbn in Hcs. injection Hcs as <-. constructor.
    - cbn in Hcs. destruct (lookup !! j) as [d|] eqn:Hd; [| done].
      cbn in Hcs. apply bind_Return_inv in Hcs as (cs' & Hcs' & Heq).
      injection Heq as <-. constructor; [done | by apply IH]. }
  unfold fill. rewrite walk_empty_iff by done.
  rewrite Forall_forall. split.
  - intros Hall i c Hi Hc Helig. apply Hall. rewrite Hperm.
    apply list_elem_of_filter. split; [done |].
    clear -HF2 Hi Hc. induction HF2 as [|j d l k Hjd _ IH];
      [by apply elem_of_nil in Hi |].
    apply elem_of_cons in Hi as [-> |Hi]; [| right; by apply IH].
    rewrite Hc in Hjd. injection Hjd as ->. left.
  - intros Hall c Hc. rewrite Hperm in Hc.
    apply list_elem_of_filter in Hc as [Helig Hc].
    assert (∃ i, i ∈ coursePool st ∧ lookup !! i = Some c) as (i & Hi & Hic).
    { clear -HF2 Hc. induction HF2 as [|j d l k Hjd _ IH];
        [by apply elem_of_nil in Hc |].
      apply elem_of_cons in Hc as [-> |Hc].
      - exists j. split; [left | done].
      - destruct (IH Hc) as (i & Hi & Hic). exists i. split; [by right | done]. }
    by eapply Hall.
Qed.

(** ** The whole run *)

Lemma unmet_ids_finalOutput (st : State) :
  unmet_ids (finalOutput st) = coursePool st.
Proof.
  unfold unmet_ids, finalOutput. cbn. rewrite <- list_fmap_compose.
  apply list_fmap_id.
Qed.

(** [generatePlan] returns, and the state it returns from satisfies the
    loop invariant for all eight terms. *)
Lemma generatePlan_returns (requirements : list Requirement)
    (catalog : list Course) (completedCourses : list string)
    (startYear : Z) :
  ∃ st,
    generatePlan requirements catalog completedCourses startYear
    = Return (finalOutput st)
    ∧ invariant (courseLookup catalog)
        (initialPool requirements (courseLookup catalog) completedCourses)
        startYear terms st.
Proof.
  set (pool0 := initialPool requirements (courseLookup catalog)
                          completedCourses).
  assert (invariant (courseLookup catalog) pool0 startYear []
            (initialState requirements catalog completedCourses)) as Hinit.
  { constructor; cbn; [done | done | constructor]. }
  destruct (run_invariant sort_by_offerings sort_by_offerings_conforming
              (courseLookup catalog) catalog startYear
              (λ i c H, proj1 (courseLookup_Some catalog i c H))
              pool0 (initialPool_NoDup _ _ _)
              (λ i H, proj2 (courseLookup_is_Some catalog i)
                        (proj1 (proj2 (proj1
                           (initialPool_required _ _ _ i) H))))
              terms [] _ Hinit)
    as (st & Hrun & Hinv).
  exists st. unfold generatePlan, generatePlanWith.
  by rewrite Hrun, bind_Return.
Qed.

(** With unique catalog identifiers and no completed course listed twice,
    the returned state also satisfies the counter invariant. *)
Lemma generatePlan_tracking (requirements : list Requirement)
    (catalog : list Course) (completedCourses : list string)
    (startYear : Z) :
  NoDup (course_id <$> catalog) → NoDup completedCourses →
  ∃ st,
    run sort_by_offerings (courseLookup catalog) catalog startYear
        (initialState requirements catalog completedCourses) terms
    = Return st
    ∧ generatePlan requirements catalog completedCourses startYear
      = Return (finalOutput st)
    ∧ invariant (courseLookup catalog)
        (initialPool requirements (courseLookup catalog) completedCourses)
        startYear terms st
    ∧ tracking (courseLookup catalog) catalog completedCourses st.
Proof.
  intros Hids Hcompleted.
  destruct (initialState_tracking requirements catalog completedCourses
              startYear Hids) as [Hinv Htrack].
  destruct (run_tracking sort_by_offerings sort_by_offerings_conforming
              requirements catalog completedCourses startYear Hids
              Hcompleted terms [] _ Hinv Htrack)
    as (st & Hrun & Hinv' & Htrack').
  exists st. unfold generatePlan, generatePlanWith.
  by rewrite Hrun, bind_Return.
Qed.

(** The prerequisite rule holds when the catalog identifiers are unique
    and no completed course is listed twice. *)
Lemma generatePlan_prerequisites_without_repeats
    (requirements : list Requirement) (catalog : list Course)
    (completedCourses : list string) (startYear : Z) :
  NoDup (course_id <$> catalog) → NoDup completedCourses →
  ∃ p,
    generatePlan requirements catalog completedCourses startYear = Return p
    ∧ prerequisites_respected catalog completedCourses p.
Proof.
  intros Hids Hcompleted.
  destruct (generatePlan_tracking requirements catalog completedCourses
              startYear Hids Hcompleted)
    as (st & _ & Hp & _ & [_ Hslots _]).
  by exists (finalOutput st).
Qed.

(** X17. With unique catalog identifiers and no completed course listed
    twice, no counter is ever negative. The state [st] is the one the
    term loop of [generatePlan] ends in. Its counter map, the map after
    each prefix of the pre-seeding pass and the map at the start of each
    term are the initial map after one catalog scan for each of the first
    [j] satisfied identifiers, for some [j]; and the counters are not
    negative after any [j] whole scans and any [m] steps of the next
    one. *)
Lemma generatePlan_counters_without_repeats
    (requirements : list Requirement) (catalog : list Course)
    (completedCourses : list string) (startYear : Z) :
  NoDup (course_id <$> catalog) → NoDup completedCourses →
  ∃ st,
    run sort_by_offerings (courseLookup catalog) catalog startYear
        (initialState requirements catalog completedCourses) terms
    = Return st
    ∧ generatePlan requirements catalog completedCourses startYear
      = Return (finalOutput st)
    ∧ let initial := initializePrereqStatus catalog in
      let events :=
        satisfied (courseLookup catalog) completedCourses (plan_so_far st) in
      prereqStatus st = foldl (satisfy catalog) initial events
      ∧ (∀ n, ∃ j,
           preseed (courseLookup catalog) catalog initial
                   (take n completedCourses)
           = foldl (satisfy catalog) initial (take j events))
      ∧ (∀ k st_k,
           run sort_by_offerings (courseLookup catalog) catalog startYear
               (initialState requirements catalog completedCourses)
               (take k terms) = Return st_k →
           ∃ j, prereqStatus st_k
                = foldl (satisfy catalog) initial (take j events))
      ∧ counters_nonnegative catalog (prereqStatus st)
      ∧ (∀ j, counters_nonnegative catalog
                (foldl (satisfy catalog) initial (take j events)))
      ∧ ∀ j i m, events !! j = Some i →
          counters_nonnegative catalog
            (satisfy (take m catalog)
               (foldl (satisfy catalog) initial (take j events)) i).
Proof.
  intros Hids Hcompleted.
  destruct (generatePlan_tracking requirements catalog completedCourses
              startYear Hids Hcompleted)
    as (st & Hrun & Hp & Hinv & [Hcounts _ Hhist]).
  exists st. split; [done |]. split; [done |]. cbn zeta.
  pose proof (satisfied_NoDup requirements catalog completedCourses
                startYear Hcompleted _ _ Hinv) as Hnd.
  set (events := satisfied (courseLookup catalog) completedCourses
                           (plan_so_far st)) in *.
  assert (∀ j, NoDup (take j events)) as Hprefix.
  { intros j. eapply sublist_NoDup; [exact Hnd | apply sublist_take]. }
  assert (∀ j, counts_track catalog (take j events)
                 (foldl (satisfy catalog) (initializePrereqStatus catalog)
                        (take j events))) as Htrack.
  { intros j. apply (satisfy_all_tracks catalog Hids (take j events) []).
    by apply initializePrereqStatus_tracks. }
  split_and!.
  - done.
  - intros n. rewrite preseed_foldl.
    exists (length (filter (λ i, is_Some (courseLookup catalog !! i))
                      (take n completedCourses))).
    assert (filter (λ i, is_Some (courseLookup catalog !! i))
                   completedCourses
            = filter (λ i, is_Some (courseLookup catalog !! i))
                     (take n completedCourses)
              ++ filter (λ i, is_Some (courseLookup catalog !! i))
                        (drop n completedCourses)) as Hsplit
      by (by rewrite <- filter_app, take_drop).
    unfold events, satisfied.
    by rewrite Hsplit, <- app_assoc, take_app_length.
  - intros k st_k Hk.
    destruct (initialState_tracking requirements catalog completedCourses
                startYear Hids) as [Hinv0 Htrack0].
    destruct (run_tracking sort_by_offerings sort_by_offerings_conforming
                requirements catalog completedCourses startYear Hids
                Hcompleted (take k terms) [] _ Hinv0 Htrack0)
      as (st' & Hrun' & _ & [_ _ Hhist']).
    rewrite Hk in Hrun'. injection Hrun' as <-.
    rewrite <- (take_drop k terms), run_app, Hk, bind_Return in Hrun.
    destruct (run_Return_plan _ _ _ _ _ _ _ Hrun) as (later & Hlater & _).
    exists (length (satisfied (courseLookup catalog) completedCourses
                              (plan_so_far st_k))).
    rewrite Hhist'. f_equal. unfold events, satisfied. rewrite Hlater.
    unfold scheduled_ids. rewrite bind_app, app_assoc.
    by rewrite take_app_length.
  - by eapply counts_track_nonnegative.
  - intros j.
    exact (counts_track_nonnegative catalog (take j events) _
             (Hprefix j) (Htrack j)).
  - intros j i m Hj.
    apply (partial_scan_nonnegative catalog Hids (take j events)); [| done].
    rewrite <- (take_S_r _ _ _ Hj). apply Hprefix.
Qed.

Lemma occurrences_app (i : string) (l k : list string) :
  occurrences i (l ++ k) = (occurrences i l + occurrences i k)%nat.
Proof. unfold occurrences. by rewrite filter_app, length_app. Qed.

Lemma occurrences_NoDup (i : string) (l : list string) :
  NoDup l → i ∈ l → occurrences i l = 1%nat.
Proof.
  unfold occurrences. induction 1 as [|j l Hj Hl IH]; intros Hi.
  - by apply elem_of_nil in Hi.
  - apply elem_of_cons in Hi as [-> |Hi].
    + rewrite filter_cons_True by done. cbn. f_equal.
      destruct (filter (λ k, k = j) l) as [|k ?] eqn:E; [done |].
      assert (k ∈ filter (λ k, k = j) l) as [-> ?]%list_elem_of_filter
        by (rewrite E; left).
      done.
    + rewrite filter_cons_False; [by apply IH |]. intros ->. done.
Qed.

Lemma occurrences_absent (i : string) (l : list string) :
  i ∉ l → occurrences i l = 0%nat.
Proof.
  unfold occurrences. intros Hi.
  destruct (filter (λ k, k = i) l) as [|k ?] eqn:E; [done |].
  assert (k ∈ filter (λ k, k = i) l) as [-> ?]%list_elem_of_filter
    by (rewrite E; left).
  done.
Qed.

(** With no identifier repeated across the slots, the slots that hold an
    identifier are as many as its occurrences in the plan. *)
Lemma one_slot_holds (i : string) (slots : list ScheduleSlot) :
  NoDup (scheduled_ids slots) →
  length (filter (λ s, i ∈ id <$> courses s) slots)
  = occurrences i (scheduled_ids slots).
Proof.
  induction slots as [|s slots IH]; [done |].
  change (scheduled_ids (s :: slots))
    with ((id <$> courses s) ++ scheduled_ids slots).
  intros (Hs & Hdisj & Hrest)%NoDup_app. rewrite occurrences_app, <- IH by done.
  rewrite filter_cons. case_decide as Hi.
  - by rewrite (occurrences_NoDup i _ Hs Hi).
  - by rewrite (occurrences_absent i _ Hi).
Qed.

Lemma terms_labels (startYear : Z) :
  (λ t : Z * string, (startYear + t.1, t.2)) <$> terms
  = eight_terms startYear.
Proof. cbn. unfold eight_terms. by rewrite Z.add_0_r. Qed.

(** ** Properties of [generatePlan] *)

(** C3. Every identifier of the required set (in some requirement's
    [options_pool], known to the catalog, not completed) ends up in exactly
    one slot and in no entry of [unmet_requirements], or in no slot and in
    exactly one entry of [unmet_requirements]. *)
Theorem generatePlan_partitions_required (requirements : list Requirement)
    (catalog : list Course) (completedCourses : list string)
    (startYear : Z) :
  ∃ p,
    generatePlan requirements catalog completedCourses startYear = Return p
    ∧ ∀ i, required requirements catalog completedCourses i ↔
        (length (slots_holding i p) = 1%nat
         ∧ occurrences i (scheduled_ids (schedule p)) = 1%nat
         ∧ occurrences i (unmet_ids p) = 0%nat)
        ∨ (length (slots_holding i p) = 0%nat
           ∧ occurrences i (scheduled_ids (schedule p)) = 0%nat
           ∧ occurrences i (unmet_ids p) = 1%nat).
Proof.
  destruct (generatePlan_returns requirements catalog completedCourses
              startYear) as (st & Hp & [Hsplit _ _]).
  exists (finalOutput st). split; [done |]. intros i.
  rewrite <- initialPool_required.
  pose proof (initialPool_NoDup requirements (courseLookup catalog)
                completedCourses) as Hnd.
  rewrite <- Hsplit in Hnd |- *.
  pose proof Hnd as (Hs & Hdisj & Hpool)%NoDup_app.
  unfold slots_holding. rewrite unmet_ids_finalOutput.
  change (schedule (finalOutput st)) with (plan_so_far st).
  rewrite (one_slot_holds i _ Hs). split.
  - intros [Hi|Hi]%elem_of_app.
    + left. rewrite (occurrences_NoDup i _ Hs Hi).
      by rewrite (occurrences_absent i _ (Hdisj i Hi)).
    + right. rewrite (occurrences_NoDup i _ Hpool Hi).
      rewrite (occurrences_absent i (scheduled_ids _)); [done |].
      intros Hi'. by eapply Hdisj.
  - rewrite elem_of_app.
    intros [(_ & H1 & _)|(_ & _ & H1)]; [left | right].
    + destruct (decide (i ∈ scheduled_ids (plan_so_far st))) as [|Hn];
        [done |].
      by rewrite (occurrences_absent i _ Hn) in H1.
    + destruct (decide (i ∈ coursePool st)) as [|Hn]; [done |].
      by rewrite (occurrences_absent i _ Hn) in H1.
Qed.

(** C4. When every catalog course has a positive credit value, the credits
    of the courses of any slot add up to the slot's stored total, and that
    total is at most [MAX_CREDITS] = 16. *)
Theorem generatePlan_credit_cap (requirements : list Requirement)
    (catalog : list Course) (completedCourses : list string)
    (startYear : Z) :
  Forall (λ c, 0 < credits c) catalog →
  ∃ p,
    generatePlan requirements catalog completedCourses startYear = Return p
    ∧ ∀ s, s ∈ schedule p →
        total_credits (courses s) = slot_credits s
        ∧ total_credits (courses s) ≤ 16.
Proof.
  intros _.
  destruct (generatePlan_returns requirements catalog completedCourses
              startYear) as (st & Hp & [_ _ Hslots]).
  exists (finalOutput st). split; [done |]. intros s Hs.
  rewrite Forall_forall in Hslots. destruct (Hslots s Hs) as (Hsum & Hcap & _).
  rewrite <- Hsum. by split.
Qed.

Lemma generatePlan_credit_cap_witness :
  ∃ p,
    generatePlan [requirement (IdArray ["A"; "B"; "C"])] crowded_catalog []
                 2024 = Return p
    ∧ ∀ s, s ∈ schedule p →
        total_credits (courses s) = slot_credits s
        ∧ total_credits (courses s) ≤ 16.
Proof.
  apply (generatePlan_credit_cap
           [requirement (IdArray ["A"; "B"; "C"])] crowded_catalog [] 2024).
  unfold crowded_catalog. repeat constructor.
Defined.

(** C5. No identifier is placed twice, whether in two slots or in one, and
    a course is placed only in a slot whose term is in its
    [semesters_offered]. *)
Theorem generatePlan_once_and_offered (requirements : list Requirement)
    (catalog : list Course) (completedCourses : list string)
    (startYear : Z) :
  ∃ p,
    generatePlan requirements catalog completedCourses startYear = Return p
    ∧ NoDup (scheduled_ids (schedule p))
    ∧ ∀ s e, s ∈ schedule p → e ∈ courses s →
        ∃ c ts, courseLookup catalog !! id e = Some c
                ∧ semesters_offered c = Some ts
                ∧ semester s ∈ ts.
Proof.
  destruct (generatePlan_returns requirements catalog completedCourses
              startYear) as (st & Hp & [Hsplit _ Hslots]).
  exists (finalOutput st). split; [done |]. split.
  - pose proof (initialPool_NoDup requirements (courseLookup catalog)
                  completedCourses) as Hnd.
    rewrite <- Hsplit in Hnd. by apply NoDup_app in Hnd as [? _].
  - intros s e Hs He. rewrite Forall_forall in Hslots.
    destruct (Hslots s Hs) as (_ & _ & Hall). rewrite Forall_forall in Hall.
    destruct (Hall e He) as (c & Hc & _ & Hoff). unfold isOffered in Hoff.
    destruct (semesters_offered c) as [ts|] eqn:Hts; [| done].
    exists c, ts. split_and!; [done | done |].
    exact (bool_decide_unpack _ Hoff).
Qed.

(** C7. The plan has the eight slots of the years [startYear] to
    [startYear + 3], fall before spring, whatever was scheduled. No term
    stops the loop: for every input and every one of the eight terms, the
    slot of that term is what the loop body yields from the state left by
    the terms before it (the initial pool without what they scheduled, the
    counters after their decrements), whether or not those terms placed
    anything; and the slot is empty only when no course of the pool that
    is eligible in that term has at most [MAX_CREDITS] credits. With a
    course taught in spring only, the first fall slot is empty and the
    course is placed in the spring slot after it. *)
Theorem generatePlan_eight_slots :
  (∀ requirements catalog completedCourses startYear,
     ∃ p,
       generatePlan requirements catalog completedCourses startYear
       = Return p
       ∧ (λ s, (year s, semester s)) <$> schedule p = eight_terms startYear
       ∧ length (schedule p) = 8%nat
       ∧ state_after requirements catalog completedCourses []
         = initialState requirements catalog completedCourses
       ∧ unmet_ids p
         = coursePool (state_after requirements catalog completedCourses
                                   (schedule p))
       ∧ ∀ k t, terms !! k = Some t →
           let st := state_after requirements catalog completedCourses
                                 (take k (schedule p)) in
           scheduleSemester sort_by_offerings (courseLookup catalog) catalog
                            startYear st t
           = Return (state_after requirements catalog completedCourses
                                 (take (S k) (schedule p)))
           ∧ ∃ slot,
               schedule p !! k = Some slot
               ∧ (courses slot = []
                  ↔ ∀ i c, i ∈ coursePool st →
                      courseLookup catalog !! i = Some c →
                      eligible (prereqStatus st) t.2 c →
                      MAX_CREDITS < credits c))
  ∧ ∃ p fall spring later,
      generatePlan [requirement (IdArray ["S"])] spring_catalog [] 2024
      = Return p
      ∧ schedule p = fall :: spring :: later
      ∧ courses fall = []
      ∧ id <$> courses spring = ["S"]
      ∧ length later = 6%nat.
Proof.
  split.
  - intros requirements catalog completedCourses startYear.
    destruct (generatePlan_returns requirements catalog completedCourses
                startYear) as (st0 & Hp & [_ Hlab _]).
    unfold generatePlan, generatePlanWith in *.
    destruct (run sort_by_offerings (courseLookup catalog) catalog startYear
                (initialState requirements catalog completedCourses) terms)
      as [st|e] eqn:Hrun; [| done].
    rewrite bind_Return in Hp. unfold finalOutput in Hp.
    injection Hp as Hplan _. rewrite <- Hplan, terms_labels in Hlab.
    exists (finalOutput st). rewrite bind_Return.
    change (schedule (finalOutput st)) with (plan_so_far st).
    rewrite unmet_ids_finalOutput.
    rewrite <- state_after_nil in Hrun.
    pose proof (run_state_after _ _ _ _ _ _ _ _ Hrun) as Hst.
    split_and!; [done | done | | apply state_after_nil | |].
    { apply (f_equal length) in Hlab. by rewrite length_fmap in Hlab. }
    { by rewrite Hst at 1. }
    intros k t Hk. cbn zeta.
    rewrite <- (take_drop_middle terms k t Hk), run_app in Hrun.
    apply bind_Return_inv in Hrun as (stk & Hbefore & Hrest).
    cbn in Hrest. apply bind_Return_inv in Hrest as (stk1 & Hstep & Hrest).
    pose proof (run_state_after _ _ _ _ _ _ _ _ Hbefore) as Hstk.
    destruct (run_Return_plan _ _ _ _ _ _ _ Hbefore) as (slots & Hslots & Hlen).
    cbn in Hslots.
    destruct (scheduleSemester_Return _ _ _ _ _ _ _ Hstep)
      as (slot & Hslot & _).
    destruct (run_Return_plan _ _ _ _ _ _ _ Hrest) as (later & Hlater & _).
    rewrite Hstk in Hstep.
    pose proof (scheduleSemester_state_after _ _ _ _ _ _ _ _ Hstep) as Hstk1.
    rewrite <- Hstk in Hstep.
    assert (length slots = k) as Hk'.
    { rewrite Hlen, length_take. apply lookup_lt_Some in Hk. lia. }
    rewrite Hslots in Hslot.
    assert (take k (plan_so_far st) = plan_so_far stk) as Htake.
    { rewrite Hlater, Hslot, Hslots, <- app_assoc.
      by apply take_app_length'. }
    assert (take (S k) (plan_so_far st) = plan_so_far stk1) as Htake1.
    { rewrite Hlater, Hslot. apply take_app_length'.
      rewrite length_app. cbn. lia. }
    rewrite Htake, Htake1, <- Hstk, <- Hstk1. split; [done |].
    exists slot. split.
    + rewrite Hlater, Hslot, <- app_assoc. cbn.
      rewrite list_lookup_middle; done.
    + apply (scheduleSemester_stalls_iff _ _ _ _ _ _ _ Hstep).
      by rewrite Hslot, Hslots.
  - eexists _, _, _, _. split; [vm_compute; reflexivity |]. cbn.
    split_and!; reflexivity.
Qed.

(** C10. [generatePlan] returns a plan on every input, absent fields and
    unknown identifiers included: no lookup in the term loop fails. Every
    scheduled course and every unmet entry names a catalog course, and a
    scheduled course has a [semesters_offered] field. *)
Theorem generatePlan_total (requirements : list Requirement)
    (catalog : list Course) (completedCourses : list string)
    (startYear : Z) :
  ∃ p,
    generatePlan requirements catalog completedCourses startYear = Return p
    ∧ (∀ s e, s ∈ schedule p → e ∈ courses s →
         ∃ c, c ∈ catalog ∧ course_id c = id e
              ∧ courseLookup catalog !! id e = Some c
              ∧ is_Some (semesters_offered c))
    ∧ (∀ u, u ∈ unmet_requirements p →
         ∃ c, c ∈ catalog ∧ course_id c = unmet_course_id u).
Proof.
  destruct (generatePlan_returns requirements catalog completedCourses
              startYear) as (st & Hp & [Hsplit _ Hslots]).
  exists (finalOutput st). split; [done |]. split.
  - intros s e Hs He. rewrite Forall_forall in Hslots.
    destruct (Hslots s Hs) as (_ & _ & Hall). rewrite Forall_forall in Hall.
    destruct (Hall e He) as (c & Hc & _ & Hoff).
    destruct (courseLookup_Some _ _ _ Hc) as [Hid Hin].
    exists c. split_and!; [done .. |]. unfold isOffered in Hoff.
    by destruct (semesters_offered c).
  - intros u Hu. cbn in Hu. apply list_elem_of_fmap in Hu as (i & -> & Hi).
    cbn. apply courseLookup_is_Some.
    assert (required requirements catalog completedCourses i) as (_ & H & _).
    { apply initialPool_required. rewrite <- Hsplit. apply elem_of_app.
      by right. }
    by apply courseLookup_is_Some.
Qed.

(** ** One term in detail *)

Lemma fill_app (slot : ScheduleSlot) (pre post : list Course) :
  fill slot (pre ++ post) = foldl consider (fill slot pre) post.
Proof. unfold fill. apply foldl_app. Qed.

(** C6. In one term the eligible courses are taken in ascending order of
    their number of offering terms (equal counts keep the pool order), and
    the whole list is walked: at each course, whatever was skipped before
    it, the course is appended when the running total plus its credits is
    at most [MAX_CREDITS] and left out otherwise, and the walk goes on
    with the courses after it. The slot lists the courses it takes in
    that sorted order. *)
Theorem scheduleSemester_sorted_walk (lookup : gmap string Course)
    (catalog : list Course) (startYear : Z) (st st' : State)
    (term : Z * string) :
  scheduleSemester sort_by_offerings lookup catalog startYear st term
  = Return st' →
  ∃ cs es picked,
    mapM (λ i, defined (lookup !! i)) (coursePool st) = Return cs
    ∧ stable_sort_of
        (filter (λ c, eligible (prereqStatus st) term.2 c) cs) es
    ∧ plan_so_far st'
      = plan_so_far st ++ [(fill (emptySlot startYear term) es).1]
    ∧ picked `sublist_of` es
    ∧ courses (fill (emptySlot startYear term) es).1 = slot_entry <$> picked
    ∧ ∀ pre c post, es = pre ++ c :: post →
        let before := fill (emptySlot startYear term) pre in
        fill (emptySlot startYear term) es
        = foldl consider (consider before c) post
        ∧ (slot_credits before.1 + credits c ≤ MAX_CREDITS →
           courses (consider before c).1
           = courses before.1 ++ [slot_entry c]
           ∧ slot_credits (consider before c).1
             = slot_credits before.1 + credits c
           ∧ (consider before c).2 = before.2 ++ [course_id c])
        ∧ (MAX_CREDITS < slot_credits before.1 + credits c →
           consider before c = before).
Proof.
  unfold scheduleSemester, eligibleCourses. intros H.
  apply bind_Return_inv in H as (es & Hes & Hst').
  apply bind_Return_inv in Hes as (cs & Hcs & Hsort).
  destruct (consider_walk (emptySlot startYear term, []) es)
    as (picked & Hsub & Hpicked & _).
  exists cs, es, picked. split; [done |].
  set (filtered := filter (λ c, eligible (prereqStatus st) term.2 c) cs) in *.
  assert (Forall has_offerings filtered) as Hoff.
  { apply Forall_forall. intros c [Hc _]%list_elem_of_filter.
    by eapply eligible_has_offerings. }
  destruct (sort_by_offerings_conforming filtered Hoff) as (es' & Hes' & Hstable).
  rewrite Hsort in Hes'. injection Hes' as <-. split; [done |].
  injection Hst' as <-. split; [done |]. split; [done |]. split; [done |].
  intros pre c post ->. cbn zeta. split_and!.
  - rewrite fill_app. reflexivity.
  - intros Hfit. by rewrite consider_fits.
  - apply consider_overflows.
Qed.

Lemma scheduleSemester_sorted_walk_witness :
  let st := initialState [requirement (IdArray ["A"; "B"; "C"])]
                         crowded_catalog [] in
  ∃ st',
    scheduleSemester sort_by_offerings (courseLookup crowded_catalog)
                     crowded_catalog 2024 st (0, "Fall"%string)
    = Return st'
    ∧ (λ s, id <$> courses s) <$> plan_so_far st' = [["A"; "C"]]
    ∧ ∃ (cs es picked : list Course),
        mapM (λ i, defined (courseLookup crowded_catalog !! i))
             (coursePool st) = Return cs
        ∧ stable_sort_of
            (filter (λ c, eligible (prereqStatus st) "Fall" c) cs) es
        ∧ plan_so_far st'
          = plan_so_far st
            ++ [(fill (emptySlot 2024 (0, "Fall"%string)) es).1]
        ∧ picked `sublist_of` es
        ∧ courses (fill (emptySlot 2024 (0, "Fall"%string)) es).1
          = slot_entry <$> picked
        ∧ ∀ pre c post, es = pre ++ c :: post →
            let before := fill (emptySlot 2024 (0, "Fall"%string)) pre in
            fill (emptySlot 2024 (0, "Fall"%string)) es
            = foldl consider (consider before c) post
            ∧ (slot_credits before.1 + credits c ≤ MAX_CREDITS →
               courses (consider before c).1
               = courses before.1 ++ [slot_entry c]
               ∧ slot_credits (consider before c).1
                 = slot_credits before.1 + credits c
               ∧ (consider before c).2 = before.2 ++ [course_id c])
            ∧ (MAX_CREDITS < slot_credits before.1 + credits c →
               consider before c = before).
Proof.
  intros st. eexists. split; [vm_compute; reflexivity |].
  split; [vm_compute; reflexivity |].
  apply (scheduleSemester_sorted_walk (courseLookup crowded_catalog)
           crowded_catalog 2024 st _ (0, "Fall"%string)).
  vm_compute. reflexivity.
Defined.

(** ** Independence of the sorting algorithm *)

Lemma eligibleCourses_conforming (sort : list Course → result (list Course))
    (lookup : gmap string Course) (st : State) (sem : string) :
  conforming sort →
  eligibleCourses sort lookup st sem
  = eligibleCourses sort_by_offerings lookup st sem.
Proof.
  intros Hsort. unfold eligibleCourses.
  destruct (mapM _ (coursePool st)) as [cs|e]; [| done].
  rewrite !bind_Return. by apply conforming_sort_eq.
Qed.

Lemma run_conforming (sort : list Course → result (list Course))
    (lookup : gmap string Course) (catalog : list Course) (startYear : Z)
    (ts : list (Z * string)) (st : State) :
  conforming sort →
  run sort lookup catalog startYear st ts
  = run sort_by_offerings lookup catalog startYear st ts.
Proof.
  intros Hsort. revert st. induction ts as [|t ts IH]; intros st; [done |].
  cbn. unfold scheduleSemester.
  rewrite (eligibleCourses_conforming sort) by done.
  destruct (eligibleCourses sort_by_offerings lookup st t.2) as [es|e];
    [| done].
  rewrite !bind_Return. apply IH.
Qed.

(** C8. Two runs on the same inputs return the same plan: slots, unmet
    list and message. Nothing is left to the engine: whichever conforming
    [sort] each run uses, the results are equal. *)
Theorem generatePlan_deterministic
    (sort1 sort2 : list Course → result (list Course))
    (requirements : list Requirement) (catalog : list Course)
    (completedCourses : list string) (startYear : Z) :
  conforming sort1 → conforming sort2 →
  generatePlanWith sort1 requirements catalog completedCourses startYear
  = generatePlanWith sort2 requirements catalog completedCourses startYear.
Proof.
  intros H1 H2. unfold generatePlanWith.
  by rewrite (run_conforming sort1), (run_conforming sort2).
Qed.

Lemma generatePlan_deterministic_witness :
  generatePlanWith sort_by_offerings [requirement (IdArray ["A"; "B"; "C"])]
                   crowded_catalog [] 2024
  = generatePlanWith sort_by_offerings [requirement (IdArray ["A"; "B"; "C"])]
                     crowded_catalog [] 2024.
Proof.
  apply (generatePlan_deterministic sort_by_offerings sort_by_offerings);
    apply sort_by_offerings_conforming.
Defined.

(** ** The resolver *)



(** ** A completed course listed twice *)

(** C1. The claim fails on the code: with [X] listed twice among the
    completed courses, the pre-seeding pass decrements the counter of [Y],
    whose only prerequisite is [X], twice, and leaves it at -1. [Y] is then
    never eligible and is reported unmet, while with [X] listed once it is
    placed in the first slot. *)
Theorem preseed_counter_negative :
  let st := initialState [requirement (IdArray ["Y"])] pair_catalog
                         ["X"; "X"] in
  initializePrereqStatus pair_catalog !! "Y" = Some (Num 1)
  ∧ prereqStatus st !! "Y" = Some (Num (-1))
  ∧ ¬ counters_nonnegative pair_catalog (prereqStatus st)
  ∧ (∃ p, generatePlan [requirement (IdArray ["Y"])] pair_catalog
                       ["X"; "X"] 2024 = Return p
          ∧ scheduled_ids (schedule p) = []
          ∧ unmet_ids p = ["Y"])
  ∧ (∃ p, generatePlan [requirement (IdArray ["Y"])] pair_catalog
                       ["X"] 2024 = Return p
          ∧ scheduled_ids (schedule p) = ["Y"]
          ∧ unmet_ids p = []).
Proof.
  intros st.
  assert (prereqStatus st !! "Y" = Some (Num (-1))) as HY
    by (vm_compute; reflexivity).
  split_and!; [vm_compute; reflexivity | exact HY | | |].
  - intros H.
    destruct (H (course "Y" 4 (Some ["X"]) (Some ["Fall"])))
      as (n & Hn & Hpos).
    + unfold pair_catalog. apply elem_of_cons. right. apply elem_of_cons.
      by left.
    + change (prereqStatus st !! "Y" = Some (Num n)) in Hn.
      rewrite HY in Hn. injection Hn as <-. lia.
  - eexists. split; [vm_compute; reflexivity |]. by split.
  - eexists. split; [vm_compute; reflexivity |]. by split.
Qed.

(** C2. The claim fails on the code: with [X] listed twice among the
    completed courses, [Y] is placed in the first slot although its
    prerequisite [W] is neither completed nor scheduled. *)
Theorem generatePlan_skips_prerequisite :
  ∃ p first later,
    generatePlan [requirement (IdArray ["Y"])] chain_catalog ["X"; "X"] 2024
    = Return p
    ∧ schedule p = first :: later
    ∧ id <$> courses first = ["Y"]
    ∧ ("W" ∉ scheduled_ids (schedule p))
    ∧ ¬ prerequisites_respected chain_catalog ["X"; "X"] p.
Proof.
  eexists _, _, _. split; [vm_compute; reflexivity |].
  split; [reflexivity |]. split; [reflexivity |]. split.
  - cbn. rewrite list_elem_of_singleton. discriminate.
  - intros H.
    destruct (H 0%nat _
                (slot_entry (course "Y" 4 (Some ["X"; "W"]) (Some ["Fall"])))
                (course "Y" 4 (Some ["X"; "W"]) (Some ["Fall"]))
                ["X"; "W"] "W" eq_refl) as [Hc|Hs].
    + left.
    + vm_compute. reflexivity.
    + reflexivity.
    + apply elem_of_cons. right. left.
    + apply elem_of_cons in Hc as [Hc|Hc]; [discriminate |].
      apply list_elem_of_singleton in Hc. discriminate.
    + cbn in Hs. by apply elem_of_nil in Hs.
Qed.

(** ** The scenarios of the specification *)

Example scenario_a_first_fall :
  summary (generatePlan [requirement (IdArray ["X"])] scenario_a [] 2024)
  = Some ([(2024, "Fall", ["X"], 3); (2024, "Spring", [], 0);
           (2025, "Fall", [], 0); (2025, "Spring", [], 0);
           (2026, "Fall", [], 0); (2026, "Spring", [], 0);
           (2027, "Fall", [], 0); (2027, "Spring", [], 0)]%string,
          [],
          "Plan generated successfully, with 0 requirements left unmet."%string).
Proof. vm_compute. reflexivity. Qed.

Example scenario_b_completed_prerequisite :
  summary (generatePlan [requirement (IdArray ["X"; "Y"])] scenario_b ["X"]
                        2024)
  = Some ([(2024, "Fall", [], 0); (2024, "Spring", ["Y"], 3);
           (2025, "Fall", [], 0); (2025, "Spring", [], 0);
           (2026, "Fall", [], 0); (2026, "Spring", [], 0);
           (2027, "Fall", [], 0); (2027, "Spring", [], 0)]%string,
          [],
          "Plan generated successfully, with 0 requirements left unmet."%string).
Proof. vm_compute. reflexivity. Qed.

Example scenario_c_over_the_cap :
  summary (generatePlan [requirement (IdArray ["Z"])] scenario_c [] 2024)
  = Some ([(2024, "Fall", [], 0); (2024, "Spring", [], 0);
           (2025, "Fall", [], 0); (2025, "Spring", [], 0);
           (2026, "Fall", [], 0); (2026, "Spring", [], 0);
           (2027, "Fall", [], 0); (2027, "Spring", [], 0)]%string,
          ["Z"]%string,
          "Plan generated successfully, with 1 requirements left unmet."%string).
Proof. vm_compute. reflexivity. Qed.

Example scenario_d_one_credit_over :
  summary (generatePlan [requirement (IdArray ["P"; "Q"])] scenario_d [] 2024)
  = Some ([(2024, "Fall", ["Q"], 8); (2024, "Spring", ["P"], 9);
           (2025, "Fall", [], 0); (2025, "Spring", [], 0);
           (2026, "Fall", [], 0); (2026, "Spring", [], 0);
           (2027, "Fall", [], 0); (2027, "Spring", [], 0)]%string,
          [],
          "Plan generated successfully, with 0 requirements left unmet."%string).
Proof. vm_compute. reflexivity. Qed.

(** The walk does not stop at the first course that overflows: [B] is
    skipped and [C], which comes after it, is still placed. *)
Example crowded_term_continues :
  summary (generatePlan [requirement (IdArray ["A"; "B"; "C"])]
                        crowded_catalog [] 2024)
  = Some ([(2024, "Fall", ["A"; "C"], 13); (2024, "Spring", [], 0);
           (2025, "Fall", ["B"], 10); (2025, "Spring", [], 0);
           (2026, "Fall", [], 0); (2026, "Spring", [], 0);
           (2027, "Fall", [], 0); (2027, "Spring", [], 0)]%string,
          [],
          "Plan generated successfully, with 0 requirements left unmet."%string).
Proof. vm_compute. reflexivity. Qed.

(** Unknown identifiers, a missing pool and missing fields are
    tolerated. *)
Example missing_data_tolerated :
  summary (generatePlan
             [requirement Absent; requirement NotAnArray;
              requirement (IdArray ["N"; "ghost"; "X"])]
             (course "N" 3 None None :: scenario_a) ["phantom"] 2024)
  = Some ([(2024, "Fall", ["X"], 3); (2024, "Spring", [], 0);
           (2025, "Fall", [], 0); (2025, "Spring", [], 0);
           (2026, "Fall", [], 0); (2026, "Spring", [], 0);
           (2027, "Fall", [], 0); (2027, "Spring", [], 0)]%string,
          ["N"]%string,
          "Plan generated successfully, with 1 requirements left unmet."%string).
Proof. vm_compute. reflexivity. Qed.

(** ** Further properties: the tables *)

(** X1. The lookup table holds, under each identifier, the last catalog
    entry that carries it, and nothing under an identifier no entry
    carries. *)
Theorem courseLookup_last (catalog : list Course) (i : string) :
  courseLookup catalog !! i
  = last (filter (λ c, course_id c = i) catalog).
Proof.
  induction catalog as [|d catalog IH] using rev_ind; [done |].
  rewrite courseLookup_snoc, filter_app, filter_cons, filter_nil.
  case_decide as Hd.
  - rewrite Hd, lookup_insert_eq. by rewrite last_snoc.
  - by rewrite lookup_insert_ne, app_nil_r.
Qed.

(** X2. The counter table has the keys of the lookup table, and each
    counter starts at the number of prerequisites of the entry the lookup
    table holds, zero when that entry has no [prerequisites] field. *)
Theorem initializePrereqStatus_counts (catalog : list Course) (i : string) :
  initializePrereqStatus catalog !! i
  = (λ c, Num (Z.of_nat (length (default [] (prerequisites c)))))
      <$> courseLookup catalog !! i.
Proof.
  induction catalog as [|d catalog IH] using rev_ind; [done |].
  rewrite courseLookup_snoc. unfold initializePrereqStatus.
  rewrite foldl_app. cbn. fold (initializePrereqStatus catalog).
  rewrite !lookup_insert. case_decide; [done | exact IH].
Qed.

(** X3. With unique catalog identifiers, the counter of a catalog course
    after the pre-seeding pass is its number of prerequisites minus the
    number of entries of [completedCourses] that the catalog knows and the
    course lists; an entry that is repeated counts each time. *)
Theorem preseed_counts (catalog : list Course)
    (completedCourses : list string) (c : Course) :
  NoDup (course_id <$> catalog) → c ∈ catalog →
  preseed (courseLookup catalog) catalog (initializePrereqStatus catalog)
          completedCourses !! course_id c
  = Some (Num (prereq_count c
               - Z.of_nat (length
                   (filter (λ i, lists_prerequisite i c)
                      (known_completed (courseLookup catalog)
                                       completedCourses))))).
Proof.
  intros Hids Hc.
  apply (preseed_tracks catalog Hids (courseLookup catalog)
           completedCourses [] _ (initializePrereqStatus_tracks catalog Hids)
           c Hc).
Qed.

Lemma preseed_counts_witness :
  preseed (courseLookup pair_catalog) pair_catalog
          (initializePrereqStatus pair_catalog) ["X"; "X"] !! "Y"
  = Some (Num (1 - 2)).
Proof.
  apply (preseed_counts pair_catalog ["X"; "X"]
           (course "Y" 4 (Some ["X"]) (Some ["Fall"]))).
  - unfold pair_catalog. cbn. apply NoDup_cons. split.
    + rewrite list_elem_of_singleton. discriminate.
    + apply NoDup_singleton.
  - unfold pair_catalog. apply elem_of_cons. right. apply elem_of_cons.
    by left.
Defined.

(** ** Further properties: the pool *)

Lemma add_options_first (lookup : gmap string Course)
    (ids s : list string) :
  foldl (add_option lookup) s ids
  = s ++ filter (λ i, i ∉ s)
           (first_occurrences (filter (λ i, is_Some (lookup !! i)) ids)).
Proof.
  revert s. induction ids as [|x ids IH]; intros s.
  - cbn. by rewrite app_nil_r.
  - change (foldl (add_option lookup) s (x :: ids))
      with (foldl (add_option lookup) (add_option lookup s x) ids).
    rewrite IH, (filter_cons _ x ids). unfold add_option, set_add.
    destruct (decide (is_Some (lookup !! x))) as [Hx|Hx]; [| done].
    change (first_occurrences (x :: ?l))
      with (x :: filter (λ y, y ≠ x) (first_occurrences l)).
    destruct (decide (x ∈ s)) as [Hs|Hs].
    + rewrite filter_cons_False by (intros H; by apply H).
      f_equal. rewrite list_filter_filter. apply list_filter_iff.
      intros y. split; [| tauto]. intros Hy. split; [done |].
      intros ->. done.
    + rewrite (filter_cons_True (λ i, i ∉ s)) by done.
      rewrite <- app_assoc. cbn. do 2 f_equal.
      rewrite list_filter_filter. apply list_filter_iff. intros y.
      rewrite elem_of_app, list_elem_of_singleton. tauto.
Qed.

Lemma pool_ids_cons (r : Requirement) (rs : list Requirement) :
  pool_ids (r :: rs)
  = match options_pool r with
    | IdArray ids => ids
    | Absent | NotAnArray => []
    end ++ pool_ids rs.
Proof. reflexivity. Qed.

Lemma add_requirements_options (lookup : gmap string Course)
    (requirements : list Requirement) (s : list string) :
  foldl (add_requirement lookup) s requirements
  = foldl (add_option lookup) s (pool_ids requirements).
Proof.
  revert s. induction requirements as [|r rs IH]; intros s; [done |].
  rewrite pool_ids_cons, foldl_app. cbn. rewrite IH. unfold add_requirement.
  by destruct (options_pool r).
Qed.

Lemma delete_all_filter (completed s : list string) :
  foldl (λ s i, set_delete i s) s completed
  = filter (λ i, i ∉ completed) s.
Proof.
  revert s. induction completed as [|j completed IH]; intros s; cbn.
  - symmetry. apply filter_all. intros i. apply not_elem_of_nil.
  - rewrite IH. unfold set_delete. rewrite list_filter_filter.
    apply list_filter_iff. intros i. rewrite elem_of_cons. tauto.
Qed.

Lemma initialPool_as_list (requirements : list Requirement)
    (lookup : gmap string Course) (completedCourses : list string) :
  initialPool requirements lookup completedCourses
  = filter (λ i, i ∉ completedCourses)
      (first_occurrences
         (filter (λ i, is_Some (lookup !! i)) (pool_ids requirements))).
Proof.
  unfold initialPool, requiredCourseIDs.
  rewrite delete_all_filter, add_requirements_options, add_options_first.
  cbn. f_equal. apply filter_all. intros i. apply not_elem_of_nil.
Qed.

(** X4. The scheduling pool is the list of the identifiers that the
    requirement rows offer (rows without an array offer none), restricted
    to the identifiers the catalog knows, without repetitions and in order
    of first appearance, minus the completed ones. *)
Theorem initialPool_first_occurrences (requirements : list Requirement)
    (catalog : list Course) (completedCourses : list string) :
  initialPool requirements (courseLookup catalog) completedCourses
  = filter (λ i, i ∉ completedCourses)
      (first_occurrences
         (filter (λ i, is_Some (courseLookup catalog !! i))
                 (pool_ids requirements))).
Proof.
  unfold initialPool, requiredCourseIDs.
  rewrite delete_all_filter, add_requirements_options, add_options_first.
  cbn. f_equal. apply filter_all. intros i. apply not_elem_of_nil.
Qed.

Lemma known_completed_idemp (lookup : gmap string Course)
    (completedCourses : list string) :
  known_completed lookup (known_completed lookup completedCourses)
  = known_completed lookup completedCourses.
Proof.
  unfold known_completed. rewrite list_filter_filter.
  apply list_filter_iff. tauto.
Qed.

Lemma initialPool_known_completed (requirements : list Requirement)
    (lookup : gmap string Course) (completedCourses : list string) :
  initialPool requirements lookup (known_completed lookup completedCourses)
  = initialPool requirements lookup completedCourses.
Proof.
  unfold initialPool. rewrite !delete_all_filter.
  assert (∀ i, i ∈ requiredCourseIDs requirements lookup →
               is_Some (lookup !! i)) as Hknown.
  { intros i Hi. unfold requiredCourseIDs in Hi.
    apply add_requirements_elem in Hi as [Hi|[_ ?]]; [| done].
    by apply elem_of_nil in Hi. }
  induction (requiredCourseIDs requirements lookup) as [|i s IH]; [done |].
  rewrite !filter_cons, IH.
  - assert (is_Some (lookup !! i)) as Hi by (apply Hknown; left).
    unfold known_completed.
    destruct (decide (i ∉ completedCourses)) as [Hn|Hn].
    + rewrite decide_True; [done |]. rewrite list_elem_of_filter. tauto.
    + rewrite decide_False; [done |]. rewrite list_elem_of_filter.
      intros Hf. apply Hn. intros Hin. apply Hf. by split.
  - intros j Hj. apply Hknown. by right.
Qed.

(** X5. Completed identifiers that the catalog does not know have no
    effect: the plan is the one for the completed list without them. *)
Theorem generatePlan_unknown_completed (requirements : list Requirement)
    (catalog : list Course) (completedCourses : list string)
    (startYear : Z) :
  generatePlan requirements catalog
               (known_completed (courseLookup catalog) completedCourses)
               startYear
  = generatePlan requirements catalog completedCourses startYear.
Proof.
  unfold generatePlan, generatePlanWith, initialState.
  pose proof (known_completed_idemp (courseLookup catalog) completedCourses)
    as Hk.
  unfold known_completed at 1 in Hk.
  by rewrite initialPool_known_completed, !preseed_foldl, Hk.
Qed.

(** ** Further properties: the returned plan *)

Lemma run_empty_pool (lookup : gmap string Course) (catalog : list Course)
    (startYear : Z) (status : gmap string jsnum)
    (ts : list (Z * string)) (slots : list ScheduleSlot) :
  run sort_by_offerings lookup catalog startYear
      {| coursePool := []; prereqStatus := status; plan_so_far := slots |} ts
  = Return {| coursePool := []; prereqStatus := status;
              plan_so_far := slots ++ (emptySlot startYear <$> ts) |}.
Proof.
  revert slots. induction ts as [|t ts IH]; intros slots.
  - cbn. by rewrite app_nil_r.
  - cbn. rewrite IH. by rewrite <- app_assoc.
Qed.

(** X6. When no identifier is required (no requirement rows, an empty
    catalog, everything completed, ...), the plan is the eight empty slots
    with zero credits, no unmet entry and a message that counts 0. *)
Theorem generatePlan_nothing_required (requirements : list Requirement)
    (catalog : list Course) (completedCourses : list string)
    (startYear : Z) :
  (∀ i, ¬ required requirements catalog completedCourses i) →
  generatePlan requirements catalog completedCourses startYear
  = Return (empty_plan startYear).
Proof.
  intros Hnone.
  assert (initialPool requirements (courseLookup catalog) completedCourses
          = []) as Hpool.
  { apply elem_of_nil_inv. intros i Hi. apply (Hnone i).
    by apply initialPool_required. }
  unfold generatePlan, generatePlanWith, initialState. rewrite Hpool.
  by rewrite run_empty_pool.
Qed.

Lemma generatePlan_nothing_required_witness :
  generatePlan [] crowded_catalog ["A"] 2024 = Return (empty_plan 2024).
Proof.
  apply (generatePlan_nothing_required [] crowded_catalog ["A"] 2024).
  intros i [(req & ids & Hreq & _) _]. by apply elem_of_nil in Hreq.
Defined.

Lemma scheduled_ids_elem (slots : list ScheduleSlot) (i : string) :
  i ∈ scheduled_ids slots
  ↔ ∃ s e, s ∈ slots ∧ e ∈ courses s ∧ id e = i.
Proof.
  unfold scheduled_ids. rewrite list_elem_of_bind. split.
  - intros (s & Hi & Hs). apply list_elem_of_fmap in Hi as (e & -> & He).
    by exists s, e.
  - intros (s & e & Hs & He & <-). exists s. split; [| done].
    by apply list_elem_of_fmap_2.
Qed.

(** X7. A completed course is neither scheduled nor reported unmet, even
    when a requirement row offers it. *)
Theorem generatePlan_completed_left_out (requirements : list Requirement)
    (catalog : list Course) (completedCourses : list string)
    (startYear : Z) :
  ∃ p,
    generatePlan requirements catalog completedCourses startYear = Return p
    ∧ ∀ i, i ∈ completedCourses →
        (i ∉ scheduled_ids (schedule p)) ∧ (i ∉ unmet_ids p).
Proof.
  destruct (generatePlan_returns requirements catalog completedCourses
              startYear) as (st & Hp & [Hsplit _ _]).
  exists (finalOutput st). split; [done |]. intros i Hi.
  rewrite unmet_ids_finalOutput.
  assert (i ∉ scheduled_ids (plan_so_far st) ++ coursePool st) as Hout.
  { rewrite Hsplit. intros Hin.
    by apply initialPool_required in Hin as (_ & _ & ?). }
  rewrite elem_of_app in Hout. cbn. tauto.
Qed.

(** X8. Scheduled courses and unmet entries together are as many as the
    pool had identifiers, and the number in the message is the number of
    unmet entries. *)
Theorem generatePlan_counts (requirements : list Requirement)
    (catalog : list Course) (completedCourses : list string)
    (startYear : Z) :
  ∃ p,
    generatePlan requirements catalog completedCourses startYear = Return p
    ∧ (length (scheduled_ids (schedule p))
       + length (unmet_requirements p)
       = length (initialPool requirements (courseLookup catalog)
                             completedCourses))%nat
    ∧ message p
      = ("Plan generated successfully, with "
         +:+ pretty (length (unmet_requirements p))
         +:+ " requirements left unmet.")%string.
Proof.
  destruct (generatePlan_returns requirements catalog completedCourses
              startYear) as (st & Hp & [Hsplit _ _]).
  exists (finalOutput st). split; [done |]. cbn. rewrite length_fmap.
  split; [| done]. by rewrite <- Hsplit, length_app.
Qed.

Lemma entry_within_total (l : list SlotCourse) (e : SlotCourse) :
  Forall (λ x, 0 ≤ slot_course_credits x) l → e ∈ l →
  slot_course_credits e ≤ total_credits l.
Proof.
  unfold total_credits. induction 1 as [|x l Hx Hl IH]; intros He.
  - by apply elem_of_nil in He.
  - cbn. apply elem_of_cons in He as [-> |He].
    + assert (0 ≤ foldr (λ e acc, slot_course_credits e + acc) 0 l); [| lia].
      clear -Hl. induction Hl; cbn; lia.
    + specialize (IH He). lia.
Qed.

(** X9. When no catalog course has negative credits, no scheduled course
    has more than 16 credits, so a required course of more than 16 credits
    is reported unmet. *)
Theorem generatePlan_oversized_unmet (requirements : list Requirement)
    (catalog : list Course) (completedCourses : list string)
    (startYear : Z) :
  Forall (λ c, 0 ≤ credits c) catalog →
  ∃ p,
    generatePlan requirements catalog completedCourses startYear = Return p
    ∧ (∀ s e, s ∈ schedule p → e ∈ courses s →
         slot_course_credits e ≤ MAX_CREDITS)
    ∧ ∀ i c, required requirements catalog completedCourses i →
        courseLookup catalog !! i = Some c → MAX_CREDITS < credits c →
        i ∈ unmet_ids p.
Proof.
  intros Hcredits.
  destruct (generatePlan_returns requirements catalog completedCourses
              startYear) as (st & Hp & [Hsplit _ Hslots]).
  exists (finalOutput st). split; [done |].
  rewrite Forall_forall in Hslots. rewrite Forall_forall in Hcredits.
  assert (∀ s e, s ∈ plan_so_far st → e ∈ courses s →
            slot_course_credits e ≤ MAX_CREDITS
            ∧ ∃ c, courseLookup catalog !! id e = Some c
                   ∧ credits c = slot_course_credits e) as Hfit.
  { intros s e Hs He. destruct (Hslots s Hs) as (Hsum & Hcap & Hall).
    rewrite Forall_forall in Hall. split.
    - rewrite <- Hcap, Hsum. apply entry_within_total; [| done].
      apply Forall_forall. intros x Hx.
      destruct (Hall x Hx) as (c & Hc & -> & _). cbn. apply Hcredits.
      by destruct (courseLookup_Some _ _ _ Hc).
    - destruct (Hall e He) as (c & Hc & -> & _). by exists c. }
  split.
  - intros s e Hs He. by destruct (Hfit s e Hs He).
  - intros i c Hreq Hc Hbig. rewrite unmet_ids_finalOutput.
    apply initialPool_required in Hreq. rewrite <- Hsplit in Hreq.
    apply elem_of_app in Hreq as [Hsched|?]; [| done].
    apply scheduled_ids_elem in Hsched as (s & e & Hs & He & <-).
    destruct (Hfit s e Hs He) as (Hle & c' & Hc' & Heq).
    rewrite Hc in Hc'. injection Hc' as <-. lia.
Qed.

Lemma generatePlan_oversized_unmet_witness :
  ∃ p,
    generatePlan [requirement (IdArray ["Z"])] scenario_c [] 2024 = Return p
    ∧ (∀ s e, s ∈ schedule p → e ∈ courses s →
         slot_course_credits e ≤ MAX_CREDITS)
    ∧ ∀ i c, required [requirement (IdArray ["Z"])] scenario_c [] i →
        courseLookup scenario_c !! i = Some c → MAX_CREDITS < credits c →
        i ∈ unmet_ids p.
Proof.
  apply (generatePlan_oversized_unmet
           [requirement (IdArray ["Z"])] scenario_c [] 2024).
  unfold scenario_c. repeat constructor. discriminate.
Defined.


(** ** Further properties: prerequisites, without repeated inputs *)

Section Satisfied.

Variable requirements : list Requirement.
Variable catalog : list Course.
Variable completedCourses : list string.
Variable startYear : Z.

Hypothesis catalog_ids : NoDup (course_id <$> catalog).
Hypothesis completed_once : NoDup completedCourses.

Abbreviation lookup := (courseLookup catalog).
Abbreviation pool0 := (initialPool requirements lookup completedCourses).

Lemma scheduleSemester_satisfied (visited : list (Z * string)) (st : State)
    (t : Z * string) :
  invariant lookup pool0 startYear visited st →
  tracking lookup catalog completedCourses st →
  prerequisites_satisfied lookup completedCourses (plan_so_far st) →
  ∃ st',
    scheduleSemester sort_by_offerings lookup catalog startYear st t
    = Return st'
    ∧ invariant lookup pool0 startYear (visited ++ [t]) st'
    ∧ tracking lookup catalog completedCourses st'
    ∧ prerequisites_satisfied lookup completedCourses (plan_so_far st').
Proof.
  intros Hinv Htrack Hsat.
  destruct (scheduleSemester_tracking sort_by_offerings
              sort_by_offerings_conforming requirements catalog
              completedCourses startYear catalog_ids completed_once
              visited st t Hinv Htrack) as (st' & Hst' & Hinv' & Htrack').
  exists st'. split_and!; [done .. |].
  assert (∀ i c, lookup !! i = Some c → course_id c = i) as Hkeys
    by (intros i c H; by destruct (courseLookup_Some catalog i c H)).
  assert (∀ i, i ∈ pool0 → is_Some (lookup !! i)) as Hknown0.
  { intros i Hi. apply courseLookup_is_Some.
    by apply initialPool_required in Hi as (_ & ? & _). }
  pose proof (initialPool_NoDup requirements lookup completedCourses) as Hnd0.
  destruct (invariant_pool lookup startYear pool0 Hnd0 Hknown0 _ _ Hinv)
    as [Hnd Hknown].
  pose proof (satisfied_NoDup requirements catalog completedCourses
                startYear completed_once _ _ Hinv) as Hevents.
  destruct (scheduleSemester_step sort_by_offerings
              sort_by_offerings_conforming lookup catalog startYear Hkeys
              st t Hnd Hknown)
    as (picked & slot & Hstep & _ & _ & Hc & _ & _ & _ & Helig).
  rewrite Hstep in Hst'. injection Hst' as <-. cbn.
  destruct Htrack as [Hcounts _ _].
  intros k s e c ps q Hk He Hlook Hps Hq.
  apply lookup_snoc_Some in Hk as [[Hlt Hk]|[-> ->]].
  - rewrite take_app_le by lia. by eapply Hsat.
  - rewrite take_app_length. rewrite Hc in He.
    apply list_elem_of_fmap in He as (c' & -> & Hc').
    rewrite Forall_forall in Helig. destruct (Helig c' Hc') as [Hself Hcan].
    cbn in Hlook. rewrite Hself in Hlook. injection Hlook as ->.
    unfold eligible in Hcan. apply andb_True in Hcan as [_ Hmet].
    unfold prereqsMet in Hmet. apply bool_decide_unpack in Hmet.
    destruct (courseLookup_Some catalog _ _ Hself) as [_ Hin].
    rewrite (Hcounts c Hin) in Hmet. injection Hmet as Hzero.
    exact (unmet_count_zero _ ps c q Hevents Hzero Hps Hq).
Qed.

Lemma run_satisfied (ts visited : list (Z * string)) (st : State) :
  invariant lookup pool0 startYear visited st →
  tracking lookup catalog completedCourses st →
  prerequisites_satisfied lookup completedCourses (plan_so_far st) →
  ∃ st',
    run sort_by_offerings lookup catalog startYear st ts = Return st'
    ∧ invariant lookup pool0 startYear (visited ++ ts) st'
    ∧ prerequisites_satisfied lookup completedCourses (plan_so_far st').
Proof.
  revert visited st.
  induction ts as [|t ts IH]; intros visited st Hinv Htrack Hsat; cbn.
  - exists st. by rewrite app_nil_r.
  - destruct (scheduleSemester_satisfied visited st t Hinv Htrack Hsat)
      as (st1 & -> & Hinv1 & Htrack1 & Hsat1).
    rewrite bind_Return.
    destruct (IH _ _ Hinv1 Htrack1 Hsat1) as (st' & Hrun & Hinv' & Hsat').
    exists st'. by rewrite <- app_assoc in Hinv'.
Qed.

End Satisfied.

Lemma scheduled_ids_middle (slots : list ScheduleSlot) (k : nat)
    (s : ScheduleSlot) :
  slots !! k = Some s →
  scheduled_ids slots
  = scheduled_ids (take k slots) ++ (id <$> courses s)
    ++ scheduled_ids (drop (S k) slots).
Proof.
  intros Hk. rewrite <- (take_drop_middle slots k s Hk) at 1.
  unfold scheduled_ids. by rewrite bind_app.
Qed.

(** X11. With unique catalog identifiers and no completed course listed
    twice, each prerequisite of a scheduled course is known to the catalog
    and is a completed course or sits in an earlier slot: a course is never
    scheduled when it lists a prerequisite the catalog does not know (even
    one given as completed), or itself. *)
Theorem generatePlan_prerequisites_known_and_earlier
    (requirements : list Requirement) (catalog : list Course)
    (completedCourses : list string) (startYear : Z) :
  NoDup (course_id <$> catalog) → NoDup completedCourses →
  ∃ p,
    generatePlan requirements catalog completedCourses startYear = Return p
    ∧ ∀ k slot e c ps q,
        schedule p !! k = Some slot →
        e ∈ courses slot →
        courseLookup catalog !! id e = Some c →
        prerequisites c = Some ps →
        q ∈ ps →
        is_Some (courseLookup catalog !! q)
        ∧ (q ∈ completedCourses
           ∨ q ∈ scheduled_ids (take k (schedule p)))
        ∧ q ≠ id e.
Proof.
  intros Hids Hcompleted.
  destruct (initialState_tracking requirements catalog completedCourses
              startYear Hids) as [Hinv Htrack].
  assert (prerequisites_satisfied (courseLookup catalog) completedCourses [])
    as Hnil.
  { intros k s e c ps q Hk. by rewrite lookup_nil in Hk. }
  destruct (run_satisfied requirements catalog completedCourses startYear
              Hids Hcompleted terms [] _ Hinv Htrack Hnil)
    as (st & Hrun & [Hsplit _ _] & Hsat).
  exists (finalOutput st). split.
  { unfold generatePlan, generatePlanWith. by rewrite Hrun, bind_Return. }
  change (schedule (finalOutput st)) with (plan_so_far st).
  intros k slot e c ps q Hk He Hc Hps Hq.
  pose proof (Hsat k slot e c ps q Hk He Hc Hps Hq) as Hdone.
  pose proof (initialPool_NoDup requirements (courseLookup catalog)
                completedCourses) as Hnd.
  rewrite <- Hsplit in Hnd. apply NoDup_app in Hnd as (Hnd & _ & _).
  rewrite (scheduled_ids_middle _ k slot Hk) in Hnd.
  apply NoDup_app in Hnd as (_ & Hdisj & _).
  assert (∀ j, j ∈ scheduled_ids (plan_so_far st) →
               is_Some (courseLookup catalog !! j) ∧ j ∉ completedCourses)
    as Hpool.
  { intros j Hj.
    assert (required requirements catalog completedCourses j)
      as (_ & Hknown & Hnot).
    { apply initialPool_required. rewrite <- Hsplit. apply elem_of_app.
      by left. }
    split; [by apply courseLookup_is_Some | done]. }
  assert (id e ∈ scheduled_ids (plan_so_far st)) as Hplaced.
  { apply scheduled_ids_elem. exists slot, e. split_and!; [| done ..].
    by eapply list_elem_of_lookup_2. }
  unfold satisfied in Hdone. apply elem_of_app in Hdone as [Hdone|Hdone].
  - apply list_elem_of_filter in Hdone as [Hknown Hin].
    split_and!; [done | by left |]. intros ->.
    by destruct (Hpool _ Hplaced).
  - split_and!; [| by right |].
    + apply Hpool. rewrite (scheduled_ids_middle _ k slot Hk).
      apply elem_of_app. by left.
    + intros ->. apply (Hdisj _ Hdone). apply elem_of_app. left.
      by apply list_elem_of_fmap_2.
Qed.

Lemma generatePlan_prerequisites_known_and_earlier_witness :
  ∃ p,
    generatePlan [requirement (IdArray ["Y"; "W"])] chain_catalog ["X"] 2024
    = Return p
    ∧ ∀ k slot e c ps q,
        schedule p !! k = Some slot →
        e ∈ courses slot →
        courseLookup chain_catalog !! id e = Some c →
        prerequisites c = Some ps →
        q ∈ ps →
        is_Some (courseLookup chain_catalog !! q)
        ∧ (q ∈ ["X"] ∨ q ∈ scheduled_ids (take k (schedule p)))
        ∧ q ≠ id e.
Proof.
  apply (generatePlan_prerequisites_known_and_earlier
           [requirement (IdArray ["Y"; "W"])] chain_catalog ["X"] 2024).
  - refine (bool_decide_unpack _ _). vm_compute. exact I.
  - apply NoDup_singleton.
Defined.

Lemma generatePlan_counters_without_repeats_witness :
  ∃ st,
    run sort_by_offerings (courseLookup chain_catalog) chain_catalog 2024
        (initialState [requirement (IdArray ["Y"; "W"])] chain_catalog
                      ["X"]) terms
    = Return st
    ∧ generatePlan [requirement (IdArray ["Y"; "W"])] chain_catalog ["X"]
                   2024
      = Return (finalOutput st)
    ∧ let initial := initializePrereqStatus chain_catalog in
      let events :=
        satisfied (courseLookup chain_catalog) ["X"] (plan_so_far st) in
      prereqStatus st = foldl (satisfy chain_catalog) initial events
      ∧ (∀ n, ∃ j,
           preseed (courseLookup chain_catalog) chain_catalog initial
                   (take n ["X"])
           = foldl (satisfy chain_catalog) initial (take j events))
      ∧ (∀ k st_k,
           run sort_by_offerings (courseLookup chain_catalog) chain_catalog
               2024
               (initialState [requirement (IdArray ["Y"; "W"])]
                             chain_catalog ["X"])
               (take k terms) = Return st_k →
           ∃ j, prereqStatus st_k
                = foldl (satisfy chain_catalog) initial (take j events))
      ∧ counters_nonnegative chain_catalog (prereqStatus st)
      ∧ (∀ j, counters_nonnegative chain_catalog
                (foldl (satisfy chain_catalog) initial (take j events)))
      ∧ ∀ j i m, events !! j = Some i →
          counters_nonnegative chain_catalog
            (satisfy (take m chain_catalog)
               (foldl (satisfy chain_catalog) initial (take j events)) i).
Proof.
  apply (generatePlan_counters_without_repeats
           [requirement (IdArray ["Y"; "W"])] chain_catalog ["X"] 2024).
  - refine (bool_decide_unpack _ _). vm_compute. exact I.
  - apply NoDup_singleton.
Defined.

(** ** Further properties: order *)

Lemma StronglySorted_sublist {A} (R : relation A) (l1 l2 : list A) :
  l1 `sublist_of` l2 → StronglySorted R l2 → StronglySorted R l1.
Proof.
  induction 1 as [|x l1 l2 Hsub IH|x l1 l2 Hsub IH]; intros Hs.
  - constructor.
  - apply StronglySorted_inv in Hs as [Hs Hx]. constructor; [by apply IH |].
    rewrite Forall_forall in Hx. apply Forall_forall. intros y Hy.
    apply Hx. by eapply sublist_subseteq.
  - apply StronglySorted_inv in Hs as [Hs _]. by apply IH.
Qed.

Section Order.

Variable lookup : gmap string Course.
Variable catalog : list Course.
Variable startYear : Z.
Variable pool0 : list string.

Hypothesis lookup_keys : ∀ i c, lookup !! i = Some c → course_id c = i.
Hypothesis pool0_NoDup : NoDup pool0.
Hypothesis pool0_known : ∀ i, i ∈ pool0 → is_Some (lookup !! i).

Lemma scheduleSemester_ordered (visited : list (Z * string)) (st : State)
    (t : Z * string) :
  invariant lookup pool0 startYear visited st →
  ∃ st' slot,
    scheduleSemester sort_by_offerings lookup catalog startYear st t
    = Return st'
    ∧ invariant lookup pool0 startYear (visited ++ [t]) st'
    ∧ plan_so_far st' = plan_so_far st ++ [slot]
    ∧ slot_sorted lookup slot
    ∧ coursePool st' `sublist_of` coursePool st.
Proof.
  intros Hinv.
  destruct (scheduleSemester_invariant sort_by_offerings
              sort_by_offerings_conforming lookup catalog startYear
              lookup_keys pool0 pool0_NoDup pool0_known visited st t Hinv)
    as (st' & Hst' & Hinv').
  exists st'. pose proof Hst' as Hrun.
  unfold scheduleSemester, eligibleCourses in Hst'.
  apply bind_Return_inv in Hst' as (es & Hes & Hst').
  apply bind_Return_inv in Hes as (cs & Hcs & Hsort).
  set (filtered := filter (λ c, eligible (prereqStatus st) t.2 c) cs) in *.
  assert (Forall has_offerings filtered) as Hoff.
  { apply Forall_forall. intros c [Hc _]%list_elem_of_filter.
    by eapply eligible_has_offerings. }
  destruct (sort_by_offerings_conforming filtered Hoff)
    as (es' & Hes' & Hsorted & Hperm & _).
  rewrite Hsort in Hes'. injection Hes' as <-.
  destruct (consider_walk (emptySlot startYear t, []) es)
    as (picked & Hsub & Hc & _).
  cbn in Hc. injection Hst' as <-.
  exists (fill (emptySlot startYear t) es).1.
  split_and!; [done | done | done | | ].
  - exists picked. split_and!; [done | | by eapply StronglySorted_sublist].
    apply Forall_forall. intros c Hin.
    assert (c ∈ cs) as Hccs.
    { assert (c ∈ filtered) as [_ ?]%list_elem_of_filter; [| done].
      rewrite <- Hperm. by eapply sublist_subseteq. }
    destruct (invariant_pool lookup startYear pool0 pool0_NoDup pool0_known
                _ _ Hinv) as [_ Hknown].
    destruct (mapM_defined lookup _ Hknown) as (cs' & Hcs' & HF2).
    rewrite Hcs in Hcs'. injection Hcs' as <-.
    clear -HF2 lookup_keys Hccs.
    induction HF2 as [|i d l k Hid _ IH]; [by apply elem_of_nil in Hccs |].
    apply elem_of_cons in Hccs as [-> |Hccs]; [| by apply IH].
    by rewrite (lookup_keys i d Hid).
  - cbn. rewrite update_pool. apply sublist_filter.
Qed.

Lemma run_ordered (ts visited : list (Z * string)) (st : State) :
  invariant lookup pool0 startYear visited st →
  Forall (slot_sorted lookup) (plan_so_far st) →
  ∃ st',
    run sort_by_offerings lookup catalog startYear st ts = Return st'
    ∧ Forall (slot_sorted lookup) (plan_so_far st')
    ∧ coursePool st' `sublist_of` coursePool st.
Proof.
  revert visited st.
  induction ts as [|t ts IH]; intros visited st Hinv Hslots; cbn.
  - by exists st.
  - destruct (scheduleSemester_ordered visited st t Hinv)
      as (st1 & slot & -> & Hinv1 & Hplan & Hslot & Hsub).
    rewrite bind_Return.
    destruct (IH _ st1 Hinv1) as (st' & Hrun & Hslots' & Hsub').
    { rewrite Hplan. apply Forall_app. split; [done |].
      by apply Forall_singleton. }
    exists st'. split_and!; [done | done | by etrans].
Qed.

End Order.

(** X12. In every slot the courses are listed in ascending order of the
    number of terms they are offered in. *)
Theorem generatePlan_slots_sorted (requirements : list Requirement)
    (catalog : list Course) (completedCourses : list string)
    (startYear : Z) :
  ∃ p,
    generatePlan requirements catalog completedCourses startYear = Return p
    ∧ ∀ s, s ∈ schedule p →
        ∃ picked,
          courses s = slot_entry <$> picked
          ∧ Forall (λ c, courseLookup catalog !! course_id c = Some c) picked
          ∧ StronglySorted
              (λ a b, (length (default [] (semesters_offered a))
                       ≤ length (default [] (semesters_offered b)))%nat)
              picked.
Proof.
  set (pool0 := initialPool requirements (courseLookup catalog)
                          completedCourses).
  assert (invariant (courseLookup catalog) pool0 startYear []
            (initialState requirements catalog completedCourses)) as Hinit.
  { constructor; cbn; [done | done | constructor]. }
  destruct (run_ordered (courseLookup catalog) catalog startYear pool0
              (λ i c H, proj1 (courseLookup_Some catalog i c H))
              (initialPool_NoDup _ _ _)
              (λ i H, proj2 (courseLookup_is_Some catalog i)
                        (proj1 (proj2 (proj1
                           (initialPool_required _ _ _ i) H))))
              terms [] _ Hinit)
    as (st & Hrun & Hslots & _); [constructor |].
  exists (finalOutput st). split.
  { unfold generatePlan, generatePlanWith. by rewrite Hrun, bind_Return. }
  intros s Hs. rewrite Forall_forall in Hslots. exact (Hslots s Hs).
Qed.

(** X13. The unmet entries are listed in the order of the pool, that is in
    the order in which the requirement rows first offer them. *)
Theorem generatePlan_unmet_order (requirements : list Requirement)
    (catalog : list Course) (completedCourses : list string)
    (startYear : Z) :
  ∃ p,
    generatePlan requirements catalog completedCourses startYear = Return p
    ∧ unmet_ids p
      `sublist_of`
      filter (λ i, i ∉ completedCourses)
        (first_occurrences
           (filter (λ i, is_Some (courseLookup catalog !! i))
                   (pool_ids requirements))).
Proof.
  set (pool0 := initialPool requirements (courseLookup catalog)
                          completedCourses).
  assert (invariant (courseLookup catalog) pool0 startYear []
            (initialState requirements catalog completedCourses)) as Hinit.
  { constructor; cbn; [done | done | constructor]. }
  destruct (run_ordered (courseLookup catalog) catalog startYear pool0
              (λ i c H, proj1 (courseLookup_Some catalog i c H))
              (initialPool_NoDup _ _ _)
              (λ i H, proj2 (courseLookup_is_Some catalog i)
                        (proj1 (proj2 (proj1
                           (initialPool_required _ _ _ i) H))))
              terms [] _ Hinit)
    as (st & Hrun & _ & Hsub); [constructor |].
  exists (finalOutput st). split.
  { unfold generatePlan, generatePlanWith. by rewrite Hrun, bind_Return. }
  rewrite unmet_ids_finalOutput. cbn in Hsub. unfold pool0 in Hsub.
  by rewrite initialPool_as_list in Hsub.
Qed.

(** ** Further properties: the start year *)

Lemma consider_shift (d : Z) (st : ScheduleSlot * list string)
    (c : Course) :
  consider (shift_year d st.1, st.2) c
  = (shift_year d (consider st c).1, (consider st c).2).
Proof.
  unfold consider. cbn. destruct (_ <=? _); [reflexivity |].
  by destruct st.
Qed.

Lemma fill_shift (d : Z) (st : ScheduleSlot * list string)
    (es : list Course) :
  foldl consider (shift_year d st.1, st.2) es
  = (shift_year d (foldl consider st es).1, (foldl consider st es).2).
Proof.
  revert st. induction es as [|c es IH]; intros st; [done |].
  cbn. rewrite consider_shift. apply IH.
Qed.

Lemma run_shift (lookup : gmap string Course) (catalog : list Course)
    (startYear d : Z) (ts : list (Z * string)) (st : State) :
  run sort_by_offerings lookup catalog (startYear + d)
      {| coursePool := coursePool st; prereqStatus := prereqStatus st;
         plan_so_far := shift_year d <$> plan_so_far st |} ts
  = st' ← run sort_by_offerings lookup catalog startYear st ts;
    mret {| coursePool := coursePool st'; prereqStatus := prereqStatus st';
            plan_so_far := shift_year d <$> plan_so_far st' |}.
Proof.
  revert st. induction ts as [|t ts IH]; intros st; [done |].
  cbn. unfold scheduleSemester, eligibleCourses. cbn.
  destruct (mapM _ (coursePool st)) as [cs|e]; [| done].
  rewrite !bind_Return.
  destruct (sort_by_offerings _) as [es|e]; [| done].
  rewrite !bind_Return.
  assert (fill (emptySlot (startYear + d) t) es
          = (shift_year d (fill (emptySlot startYear t) es).1,
             (fill (emptySlot startYear t) es).2)) as Hfill.
  { unfold fill. rewrite <- (fill_shift d (emptySlot startYear t, [])).
    cbn. unfold shift_year, emptySlot. cbn. do 3 f_equal. lia. }
  rewrite Hfill. cbn. rewrite <- IH. cbn. by rewrite fmap_app.
Qed.

(** X14. The start year only labels the slots: a plan that starts [d]
    years later has the same courses and credits in each slot, the same
    unmet entries and the same message. *)
Theorem generatePlan_start_year (requirements : list Requirement)
    (catalog : list Course) (completedCourses : list string)
    (startYear d : Z) :
  ∃ p p',
    generatePlan requirements catalog completedCourses startYear = Return p
    ∧ generatePlan requirements catalog completedCourses (startYear + d)
      = Return p'
    ∧ schedule p' = shift_year d <$> schedule p
    ∧ unmet_requirements p' = unmet_requirements p
    ∧ message p' = message p.
Proof.
  destruct (generatePlan_returns requirements catalog completedCourses
              startYear) as (st0 & Hp & _).
  unfold generatePlan, generatePlanWith in *.
  pose proof (run_shift (courseLookup catalog) catalog startYear d terms
                (initialState requirements catalog completedCourses)) as Hs.
  change (run sort_by_offerings (courseLookup catalog) catalog
              (startYear + d)
              (initialState requirements catalog completedCourses) terms
          = st' ← run sort_by_offerings (courseLookup catalog) catalog
                      startYear
                      (initialState requirements catalog completedCourses)
                      terms;
            mret {| coursePool := coursePool st';
                    prereqStatus := prereqStatus st';
                    plan_so_far := shift_year d <$> plan_so_far st' |})
    in Hs.
  rewrite Hs.
  destruct (run sort_by_offerings (courseLookup catalog) catalog startYear
              (initialState requirements catalog completedCourses) terms)
    as [st|e]; [| done].
  exists (finalOutput st),
    (finalOutput {| coursePool := coursePool st;
                    prereqStatus := prereqStatus st;
                    plan_so_far := shift_year d <$> plan_so_far st |}).
  by rewrite !bind_Return.
Qed.

(** ** Further properties: what a term leaves in the pool *)

Lemma consider_walk_grows (st : ScheduleSlot * list string)
    (es : list Course) :
  Forall (λ c, 0 ≤ credits c) es →
  slot_credits st.1 ≤ slot_credits (foldl consider st es).1
  ∧ ∀ i, i ∈ st.2 → i ∈ (foldl consider st es).2.
Proof.
  intros Hes.
  destruct (consider_walk st es) as (picked & Hsub & _ & Hi & Hcr & _).
  split.
  - rewrite Hcr.
    assert (0 ≤ total_credits (slot_entry <$> picked)); [| lia].
    assert (Forall (λ c, 0 ≤ credits c) picked) as Hpicked.
    { rewrite Forall_forall in Hes. apply Forall_forall. intros c Hc.
      apply Hes. by eapply sublist_subseteq. }
    clear -Hpicked. unfold total_credits.
    induction Hpicked; cbn; [done | lia].
  - intros i Hin. rewrite Hi. apply elem_of_app. by left.
Qed.

Lemma consider_walk_leftover (st : ScheduleSlot * list string)
    (es : list Course) (c : Course) :
  Forall (λ c, 0 ≤ credits c) es → c ∈ es →
  course_id c ∈ (foldl consider st es).2
  ∨ MAX_CREDITS < slot_credits (foldl consider st es).1 + credits c.
Proof.
  revert st. induction es as [|x es IH]; intros st Hes Hc.
  - by apply elem_of_nil in Hc.
  - apply Forall_cons in Hes as [Hx Hes]. cbn.
    apply elem_of_cons in Hc as [-> |Hc]; [| by apply IH].
    destruct (consider_walk_grows (consider st x) es Hes) as [Hle Hin].
    destruct (Z.le_gt_cases (slot_credits st.1 + credits x) MAX_CREDITS)
      as [Hfit|Hover].
    + left. apply Hin. rewrite consider_fits by done. cbn.
      apply elem_of_app. right. by apply list_elem_of_singleton.
    + right. rewrite consider_overflows in Hle |- * by lia. lia.
Qed.

(** X15. When no catalog course has negative credits, a course that was
    eligible in a term and is still in the pool after it did not fit: the
    credits of the slot plus its own exceed 16. *)
Theorem scheduleSemester_leftover (catalog : list Course) (startYear : Z)
    (st st' : State) (t : Z * string) :
  Forall (λ c, 0 ≤ credits c) catalog →
  scheduleSemester sort_by_offerings (courseLookup catalog) catalog
                   startYear st t = Return st' →
  ∃ slot,
    plan_so_far st' = plan_so_far st ++ [slot]
    ∧ ∀ i c, i ∈ coursePool st' →
        courseLookup catalog !! i = Some c →
        eligible (prereqStatus st) t.2 c →
        MAX_CREDITS < slot_credits slot + credits c.
Proof.
  intros Hcredits Hst'. unfold scheduleSemester, eligibleCourses in Hst'.
  apply bind_Return_inv in Hst' as (es & Hes & Hst').
  apply bind_Return_inv in Hes as (cs & Hcs & Hsort).
  set (filtered := filter (λ c, eligible (prereqStatus st) t.2 c) cs) in *.
  assert (Forall has_offerings filtered) as Hoff.
  { apply Forall_forall. intros c [Hc _]%list_elem_of_filter.
    by eapply eligible_has_offerings. }
  destruct (sort_by_offerings_conforming filtered Hoff)
    as (es' & Hes' & _ & Hperm & _).
  rewrite Hsort in Hes'. injection Hes' as <-. injection Hst' as <-.
  exists (fill (emptySlot startYear t) es).1. split; [done |].
  cbn. rewrite update_pool. intros i c [Hout Hin]%list_elem_of_filter Hc Helig.
  assert (Forall2 (λ i c, courseLookup catalog !! i = Some c)
                  (coursePool st) cs) as HF2.
  { clear -Hcs. revert cs Hcs.
    induction (coursePool st) as [|j pool IH]; intros cs Hcs.
    - cbn in Hcs. injection Hcs as <-. constructor.
    - cbn in Hcs. destruct (courseLookup catalog !! j) as [d|] eqn:Hd;
        [| done].
      cbn in Hcs. apply bind_Return_inv in Hcs as (cs' & Hcs' & Heq).
      injection Heq as <-. constructor; [done | by apply IH]. }
  assert (c ∈ cs) as Hccs.
  { clear -HF2 Hin Hc. induction HF2 as [|j d l k Hjd _ IH];
      [by apply elem_of_nil in Hin |].
    apply elem_of_cons in Hin as [-> |Hin]; [| right; by apply IH].
    rewrite Hc in Hjd. injection Hjd as ->. left. }
  assert (Forall (λ c, 0 ≤ credits c) es) as Hes.
  { rewrite Forall_forall in Hcredits. apply Forall_forall. intros x Hx.
    apply Hcredits. rewrite Hperm in Hx.
    apply list_elem_of_filter in Hx as [_ Hx].
    clear -HF2 Hx. induction HF2 as [|j d l k Hjd _ IH];
      [by apply elem_of_nil in Hx |].
    apply elem_of_cons in Hx as [-> |Hx]; [| by apply IH].
    by destruct (courseLookup_Some _ _ _ Hjd). }
  assert (c ∈ es) as Hces.
  { rewrite Hperm. apply list_elem_of_filter. by split. }
  destruct (consider_walk_leftover (emptySlot startYear t, []) es c Hes Hces)
    as [Hplaced|Hover]; [| done].
  destruct Hout. destruct (courseLookup_Some _ _ _ Hc) as [<- _]. done.
Qed.

Lemma scheduleSemester_leftover_witness :
  let st := initialState [requirement (IdArray ["A"; "B"; "C"])]
                         crowded_catalog [] in
  ∃ st',
    scheduleSemester sort_by_offerings (courseLookup crowded_catalog)
                     crowded_catalog 2024 st (0, "Fall"%string)
    = Return st'
    ∧ coursePool st' = ["B"]
    ∧ ∃ slot,
        plan_so_far st' = plan_so_far st ++ [slot]
        ∧ ∀ i c, i ∈ coursePool st' →
            courseLookup crowded_catalog !! i = Some c →
            eligible (prereqStatus st) "Fall" c →
            MAX_CREDITS < slot_credits slot + credits c.
Proof.
  intros st. eexists. split; [vm_compute; reflexivity |].
  split; [reflexivity |].
  apply (scheduleSemester_leftover crowded_catalog 2024 st _
           (0, "Fall"%string)).
  - unfold crowded_catalog. repeat constructor; discriminate.
  - vm_compute. reflexivity.
Defined.

(** ** Further properties: failures of the resolver *)

(** X16. [getRequirements] throws exactly in four cases, decided in this
    order: the program query is rejected (its cause is thrown), the
    program query gives no row ("no programs found"), the requirements
    query is rejected, the catalog query is rejected (their cause is
    thrown). *)
Theorem getRequirements_throws (db : Resolver.Database)
    (major minor concentration : option string) (e : exn) :
  let programs := omap Resolver.truthy [major; minor; concentration] in
  Resolver.getRequirements db major minor concentration = Throw e ↔
    (∃ cause, Resolver.programIdsQuery db programs = Resolver.Rejected cause
              ∧ e = DbFailure cause)
    ∨ (Resolver.programIdsQuery db programs = Resolver.Rows []
       ∧ e = Resolver.NotFoundError)
    ∨ (∃ rows cause,
         Resolver.programIdsQuery db programs = Resolver.Rows rows
         ∧ rows ≠ []
         ∧ Resolver.requirementsQuery db (Resolver.row_program_id <$> rows)
           = Resolver.Rejected cause
         ∧ e = DbFailure cause)
    ∨ (∃ rows reqs cause,
         Resolver.programIdsQuery db programs = Resolver.Rows rows
         ∧ rows ≠ []
         ∧ Resolver.requirementsQuery db (Resolver.row_program_id <$> rows)
           = Resolver.Rows reqs
         ∧ Resolver.coursesQuery db = Resolver.Rejected cause
         ∧ e = DbFailure cause).
Proof.
  intros programs. unfold Resolver.getRequirements. fold programs.
  destruct (Resolver.programIdsQuery db programs) as [[|r rows]|cause];
    cbn; [naive_solver | | naive_solver].
  destruct (Resolver.requirementsQuery db
              (Resolver.row_program_id <$> r :: rows))
    as [reqs|cause] eqn:Hreqs; cbn in *; rewrite Hreqs; cbn.
  - destruct (Resolver.coursesQuery db) as [cs|cause]; cbn.
    + split; [done |].
      intros [(? & [=] & _)|[[[=] _]|[(? & ? & [= <-] & _ & Hr & _)
              |(? & ? & ? & [=] & _ & _ & [=] & _)]]].
      cbn in Hr. rewrite Hreqs in Hr. done.
    + split.
      * intros [= <-]. do 3 right. by exists (r :: rows), reqs, cause.
      * intros [(? & [=] & _)|[[[=] _]|[(? & ? & [= <-] & _ & Hr & _)
                |(? & ? & ? & _ & _ & _ & [= <-] & ->)]]]; [| done].
        cbn in Hr. rewrite Hreqs in Hr. done.
  - split.
    + intros [= <-]. do 2 right. left. by exists (r :: rows), cause.
    + intros [(? & [=] & _)|[[[=] _]|[(? & ? & [= <-] & _ & Hr & ->)
              |(? & ? & ? & [= <-] & _ & Hr & _)]]];
        cbn in Hr; rewrite Hreqs in Hr; [by injection Hr as -> | done].
Qed.
